(** * The container stack of SplashKit's immediate-mode interface

    A shallow embedding of [coresdk/src/coresdk/interface.cpp]: the stack
    of open containers, the recovery from mismatched [start_*]/[end_*]
    pairs, the forced closure at [draw_interface], and the layout
    mutators.

    The file-scope variables of the translation unit ([container_stack],
    [errors_occurred], [label_width]) are the fields of a [world] that
    every function threads.  The interface driver ([interface_driver.h])
    is not part of the translation unit: it is an abstract state with one
    operation per [sk_interface_*] function.  A ghost [trace] records, in
    program order, every state-changing driver call, every line logged
    through [CLOG], and every [push_back]/[pop_back] on the stack. *)

From Stdlib Require Import List ZArith Bool String Ascii Arith Lia.
Import ListNotations.

Local Open Scope Z_scope.

(** ** Data model *)

Inductive panel_type : Type :=
| panel
| inset
| treenode
| column
| popup.

Definition panel_type_eqb (a b : panel_type) : bool :=
  match a, b with
  | panel, panel | inset, inset | treenode, treenode
  | column, column | popup, popup => true
  | _, _ => false
  end.

Lemma panel_type_eqb_eq (a b : panel_type) :
  panel_type_eqb a b = true <-> a = b.
Proof. destruct a, b; simpl; split; congruence. Qed.

Lemma panel_type_eqb_refl (a : panel_type) : panel_type_eqb a a = true.
Proof. now destruct a. Qed.

(** [struct container_info]; the two layout members carry default member
    initialisers, which [new_container] applies for the aggregate
    [{type, name}]. *)
Record container_info : Type := mk_container_info {
  type : panel_type;
  name : string;
  layout_widths : list Z;
  layout_height : Z
}.

Definition new_container (ty : panel_type) (nm : string) : container_info :=
  {| type := ty; name := nm; layout_widths := [-1]; layout_height := 0 |}.

(** The test [c.type == type && c.name == name] used by the close path. *)
Definition is_container (ty : panel_type) (nm : string) (c : container_info) : bool :=
  panel_type_eqb (type c) ty && String.eqb (name c) nm.

Definition panel_type_to_string (ty : panel_type) : string :=
  match ty with
  | panel => "panel"
  | inset => "inset"
  | treenode => "treenode"
  | column => "column"
  | popup => "popup"
  end%string.

Definition _get_end_function_prefix (ty : panel_type) : string :=
  (if panel_type_eqb ty column then "leave_" else "end_")%string.

(** ** The platform and the interface driver *)

(** Types and helpers of the rest of the SDK that the translation unit
    only passes around.  [scale_to_int w f] stands for the C++ expression
    [(int)(w * f)] with [w] an [int] and [f] a [double]. *)
Class Platform : Type := {
  rectangle : Type;
  font : Type;
  float : Type;
  double : Type;
  drawing_options : Type;
  option_defaults : drawing_options;
  font_named : string -> font;
  scale_to_int : Z -> double -> Z
}.

(** The functions of [interface_driver.h], over the driver's own state. *)
Class InterfaceDriver (P : Platform) : Type := {
  backend : Type;
  sk_interface_is_started : backend -> bool;
  sk_interface_capacity_limited : backend -> bool;
  sk_interface_start : backend -> backend;
  sk_interface_draw : drawing_options -> backend -> backend;
  sk_interface_set_layout : list Z -> Z -> backend -> backend;
  sk_interface_get_container_size : backend -> Z * Z;
  sk_interface_style_set_font : font -> backend -> backend;
  sk_interface_style_set_font_size : Z -> backend -> backend;
  sk_interface_start_panel : string -> rectangle -> backend -> bool * backend;
  sk_interface_end_panel : backend -> backend;
  sk_interface_start_popup : string -> backend -> bool * backend;
  sk_interface_end_popup : backend -> backend;
  sk_interface_start_inset : string -> backend -> backend;
  sk_interface_end_inset : backend -> backend;
  sk_interface_start_treenode : string -> backend -> bool * backend;
  sk_interface_end_treenode : backend -> backend;
  sk_interface_start_column : backend -> backend;
  sk_interface_end_column : backend -> backend;
  sk_interface_open_popup : string -> backend -> backend;
  sk_interface_header : string -> backend -> bool * backend;
  sk_interface_label : string -> backend -> backend;
  sk_interface_text : string -> backend -> backend;
  sk_interface_button : string -> backend -> bool * backend;
  sk_interface_checkbox : string -> bool -> backend -> bool * backend;
  sk_interface_slider : float -> float -> float -> backend -> float * backend;
  sk_interface_number : float -> float -> backend -> float * backend;
  sk_interface_text_box : string -> backend -> string * backend;
  sk_interface_changed : backend -> bool;
  sk_interface_confirmed : backend -> bool
}.

(** ** Traces *)

(** A state-changing driver call, with its arguments and, where the
    engine reads it, its result. *)
Inductive driver_call {P : Platform} : Type :=
| Start
| Draw (opts : drawing_options)
| SetLayout (widths : list Z) (height : Z)
| StyleSetFont (fnt : font)
| StyleSetFontSize (size : Z)
| StartPanel (nm : string) (r : rectangle) (opened : bool)
| StartPopup (nm : string) (opened : bool)
| StartInset (nm : string)
| StartTreenode (nm : string) (opened : bool)
| StartColumn
| End (ty : panel_type)
| OpenPopup (nm : string)
| Header (lbl : string) (opened : bool)
| Label (lbl : string)
| Text (txt : string)
| Button (txt : string) (res : bool)
| Checkbox (txt : string) (value res : bool)
| Slider (value lo hi res : float)
| Number (value step res : float)
| TextBox (value res : string).

Inductive event {P : Platform} : Type :=
| Call (c : driver_call)
| Warning (msg : string)
| Pushed (c : container_info)
| Popped (c : container_info).

(** ** The engine *)

Section Engine.

Context {P : Platform} {D : InterfaceDriver P}.

Record world : Type := mk_world {
  container_stack : list container_info;
  errors_occurred : bool;
  label_width : Z;
  driver : backend;
  trace : list event
}.

(** State and failure: [None] is a run that leaves defined behaviour
    (dereferencing an iterator that designates no live element). *)
Definition M (A : Type) : Type := world -> option (A * world).

Definition ret {A} (a : A) : M A := fun w => Some (a, w).

Definition bind {A B} (m : M A) (k : A -> M B) : M B :=
  fun w => match m w with
           | Some (a, w') => k a w'
           | None => None
           end.

Definition undefined {A} : M A := fun _ => None.

Notation "x <- m ;; k" := (bind m (fun x => k))
  (at level 61, m at next level, right associativity).
Notation "m ;;; k" := (bind m (fun _ => k))
  (at level 61, right associativity).

Definition gets {A} (f : world -> A) : M A := fun w => Some (f w, w).

Definition emit (e : event) : M unit :=
  fun w => Some (tt, mk_world (container_stack w) (errors_occurred w)
                              (label_width w) (driver w) (trace w ++ [e])).

Definition set_driver (b : backend) : M unit :=
  fun w => Some (tt, mk_world (container_stack w) (errors_occurred w)
                              (label_width w) b (trace w)).

Definition set_container_stack (v : list container_info) : M unit :=
  fun w => Some (tt, mk_world v (errors_occurred w)
                              (label_width w) (driver w) (trace w)).

Definition set_errors_occurred (b : bool) : M unit :=
  fun w => Some (tt, mk_world (container_stack w) b
                              (label_width w) (driver w) (trace w)).

Definition set_label_width (z : Z) : M unit :=
  fun w => Some (tt, mk_world (container_stack w) (errors_occurred w)
                              z (driver w) (trace w)).

(** [CLOG(WARNING, "interface") << msg]. *)
Definition clog (msg : string) : M unit := emit (Warning msg).

(** A driver call without a result, and one with. *)
Definition command (c : driver_call) (f : backend -> backend) : M unit :=
  b <- gets driver ;; set_driver (f b) ;;; emit (Call c).

Definition request {A} (c : A -> driver_call) (f : backend -> A * backend) : M A :=
  b <- gets driver ;;
  let r := f b in
  set_driver (snd r) ;;; emit (Call (c (fst r))) ;;; ret (fst r).

(** *** [std::vector] and its reverse iterators

    The vector is the list of its elements in storage order, so [back]
    is the last one.  A reverse iterator is the position of its base in
    the buffer: [rbegin] is the size, [rend] is [0], [++] moves the base
    one position down, and dereferencing reads the element just below
    the base, which has to be a live element of the vector.  [pop_back]
    never moves the buffer, so a position means the same before and
    after it; this is how the pointer-based iterators of the usual
    standard libraries behave in the loops below, which pop while they
    iterate. *)

Definition riter : Type := nat.

Definition size : M nat := gets (fun w => List.length (container_stack w)).

Definition rbegin : M riter := size.

Definition rend : riter := O.

Definition deref (i : riter) : M container_info :=
  fun w => match i with
           | O => None
           | S j => match nth_error (container_stack w) j with
                    | Some c => Some (c, w)
                    | None => None
                    end
           end.

Definition back : M container_info := n <- size ;; deref n.

Definition push_back (c : container_info) : M unit :=
  v <- gets container_stack ;;
  set_container_stack (v ++ [c]) ;;; emit (Pushed c).

Definition pop_back : M unit :=
  c <- back ;;
  v <- gets container_stack ;;
  set_container_stack (removelast v) ;;; emit (Popped c).

(** Assignment through [container_stack.back()]. *)
Definition set_back (f : container_info -> container_info) : M unit :=
  c <- back ;;
  v <- gets container_stack ;;
  set_container_stack (removelast v ++ [f c]).

(** [for (iterator i = first; i != last; i++) body(i)]. *)
Fixpoint for_riter (i last : riter) (body : riter -> M unit) : M unit :=
  if Nat.eqb i last then ret tt
  else match i with
       | O => undefined
       | S i' => body i ;;; for_riter i' last body
       end.

(** *** Diagnostics *)

Definition dquote : string := String (ascii_of_nat 34) EmptyString.

(** The text [prefix type ( "name" ] shared by most diagnostics. *)
Definition end_call_text (ty : panel_type) (nm : string) : string :=
  (_get_end_function_prefix ty ++ panel_type_to_string ty ++ "(" ++ dquote
     ++ nm ++ dquote)%string.

Definition msg_not_started : string :=
  "Interface function called before 'process_events' - make sure to call this first!"%string.

Definition msg_too_many_items : string :=
  "Too many interface items have been created without drawing/clearing them! Are you forgetting to call 'process_events' and 'draw_interface'?"%string.

Definition msg_cleared : string :=
  "The interface has now been cleared, to stop the program from crashing."%string.

Definition msg_nothing_started (ty : panel_type) (nm : string) : string :=
  ("Unexpected call to " ++ end_call_text ty nm ++ ") - no "
     ++ panel_type_to_string ty
     ++ "s (or any other containers at all) started!")%string.

Definition msg_no_such_container (ty : panel_type) (nm : string) : string :=
  ("Unexpected call to " ++ end_call_text ty nm ++ ") - no "
     ++ panel_type_to_string ty ++ " named '" ++ nm
     ++ "' started! Maybe it's a typo?")%string.

Definition msg_expecting (c : container_info) : string :=
  ("    We were expecting a " ++ panel_type_to_string (type c) ++ " named "
     ++ dquote ++ name c ++ dquote ++ " instead.")%string.

Definition msg_too_early (ty : panel_type) (nm : string) : string :=
  (end_call_text ty nm ++ "); called too early!")%string.

Definition msg_call_these_first : string :=
  "Make sure to call these first:"%string.

Definition msg_call_first (c : container_info) : string :=
  ("    " ++ end_call_text (type c) (name c) ++ ");")%string.

Definition msg_not_closed (c : container_info) : string :=
  (dquote ++ name c ++ dquote ++ " ( a " ++ panel_type_to_string (type c)
     ++ " ) not closed before drawing! - make sure to call "
     ++ end_call_text (type c) (name c) ++ ")!")%string.

Definition msg_errors_occurred : string :=
  "=================Errors Occured in Interface!================="%string.

(** *** Internal functions *)

Definition _interface_sanity_check : M unit :=
  started <- gets (fun w => sk_interface_is_started (driver w)) ;;
  (if negb started
   then clog msg_not_started ;;; command Start sk_interface_start
   else ret tt) ;;;
  limited <- gets (fun w => sk_interface_capacity_limited (driver w)) ;;
  if limited
  then clog msg_too_many_items ;;; clog msg_cleared ;;;
       command Start sk_interface_start
  else ret tt.

(** The driver receives the widths as a count and a pointer; here, as
    the list they designate. *)
Definition _update_layout : M unit :=
  n <- size ;;
  if Nat.eqb n 0 then ret tt
  else
    c <- back ;;
    command (SetLayout (layout_widths c) (layout_height c))
            (sk_interface_set_layout (layout_widths c) (layout_height c)).

Definition _push_container_stack (open : bool) (ty : panel_type) (nm : string)
  : M unit :=
  (if open then push_back (new_container ty nm) else ret tt) ;;;
  _update_layout.

Definition _pop_container_by_type (ty : panel_type) : M unit :=
  match ty with
  | panel => command (End panel) sk_interface_end_panel
  | popup => command (End popup) sk_interface_end_popup
  | inset => command (End inset) sk_interface_end_inset
  | treenode => command (End treenode) sk_interface_end_treenode
  | column => command (End column) sk_interface_end_column
  end.

(** The search loop of [_pop_container_stack]: from [i] towards [rend],
    the first iterator whose element has the wanted type and name; [rend]
    when the loop runs to its end. *)
Fixpoint find_correct_container (i : riter) (ty : panel_type) (nm : string)
  : M riter :=
  match i with
  | O => ret rend
  | S i' =>
      c <- deref i ;;
      if is_container ty nm c then ret i
      else find_correct_container i' ty nm
  end.

Definition _pop_container_stack (ty : panel_type) (nm : string) : M unit :=
  n <- size ;;
  if Nat.eqb n 0 then
    clog (msg_nothing_started ty nm) ;;;
    set_errors_occurred true
  else
    container <- back ;;
    if is_container ty nm container then
      _pop_container_by_type (type container) ;;;
      pop_back
    else
      set_errors_occurred true ;;;
      first <- rbegin ;;
      correct_container <- find_correct_container first ty nm ;;
      if Nat.eqb correct_container rend then
        clog (msg_no_such_container ty nm) ;;;
        clog (msg_expecting container)
      else
        clog (msg_too_early ty nm) ;;;
        clog msg_call_these_first ;;;
        first <- rbegin ;;
        for_riter first correct_container
          (fun i => c <- deref i ;; clog (msg_call_first c)) ;;;
        first <- rbegin ;;
        for_riter first (Nat.pred correct_container)
          (fun i => c <- deref i ;; _pop_container_by_type (type c) ;;; pop_back).

Definition _two_column_layout : M unit :=
  n <- size ;;
  if Nat.eqb n 0 then ret tt
  else
    set_back (fun c => mk_container_info (type c) (name c) [] (layout_height c)) ;;;
    lw <- gets label_width ;;
    set_back (fun c => mk_container_info (type c) (name c)
                         (layout_widths c ++ [lw]) (layout_height c)) ;;;
    set_back (fun c => mk_container_info (type c) (name c)
                         (layout_widths c ++ [-1]) (layout_height c)) ;;;
    _update_layout.

(** *** The public interface *)

(** The closing loop of [draw_interface]; its bound
    [container_stack.rend()] is the same position at every turn. *)
Definition close_unclosed : M unit :=
  first <- rbegin ;;
  for_riter first rend
    (fun i =>
       c <- deref i ;;
       clog (msg_not_closed c) ;;;
       c <- deref i ;;
       _pop_container_by_type (type c) ;;;
       pop_back ;;;
       set_errors_occurred true).

(** What [draw_interface] does once the stack has been emptied. *)
Definition report_and_draw : M unit :=
  err <- gets errors_occurred ;;
  (if err then clog msg_errors_occurred else ret tt) ;;;
  set_errors_occurred false ;;;
  let opts := option_defaults in
  command (Draw opts) (sk_interface_draw opts).

Definition draw_interface : M unit :=
  _interface_sanity_check ;;;
  close_unclosed ;;;
  report_and_draw.

Definition set_interface_font (fnt : font) : M unit :=
  command (StyleSetFont fnt) (sk_interface_style_set_font fnt).

Definition set_interface_font_named (fnt : string) : M unit :=
  set_interface_font (font_named fnt).

Definition set_interface_font_size (sz : Z) : M unit :=
  command (StyleSetFontSize sz) (sk_interface_style_set_font_size sz).

Definition set_interface_label_width (width : Z) : M unit :=
  set_label_width width.

Definition reset_layout : M unit :=
  _interface_sanity_check ;;;
  n <- size ;;
  if Nat.eqb n 0 then ret tt
  else
    set_back (fun c => mk_container_info (type c) (name c) [] (layout_height c)) ;;;
    set_back (fun c => mk_container_info (type c) (name c)
                         (layout_widths c ++ [-1]) (layout_height c)) ;;;
    _update_layout.

Definition single_line_layout : M unit :=
  _interface_sanity_check ;;;
  n <- size ;;
  if Nat.eqb n 0 then ret tt
  else
    set_back (fun c => mk_container_info (type c) (name c) [] (layout_height c)) ;;;
    _update_layout.

Definition start_custom_layout : M unit :=
  _interface_sanity_check ;;;
  n <- size ;;
  if Nat.eqb n 0 then ret tt
  else
    set_back (fun c => mk_container_info (type c) (name c) [] (layout_height c)) ;;;
    _update_layout.

Definition add_column (width : Z) : M unit :=
  _interface_sanity_check ;;;
  n <- size ;;
  if Nat.eqb n 0 then ret tt
  else
    set_back (fun c => mk_container_info (type c) (name c)
                         (layout_widths c ++ [width]) (layout_height c)) ;;;
    _update_layout.

Definition add_column_relative (width : double) : M unit :=
  _interface_sanity_check ;;;
  n <- size ;;
  if Nat.eqb n 0 then ret tt
  else
    wh <- gets (fun w => sk_interface_get_container_size (driver w)) ;;
    let (w, h) := wh in
    set_back (fun c => mk_container_info (type c) (name c)
                         (layout_widths c ++ [scale_to_int w width])
                         (layout_height c)) ;;;
    _update_layout.

Definition set_layout_height (height : Z) : M unit :=
  _interface_sanity_check ;;;
  n <- size ;;
  if Nat.eqb n 0 then ret tt
  else
    set_back (fun c => mk_container_info (type c) (name c)
                         (layout_widths c) height) ;;;
    _update_layout.

Definition start_panel (nm : string) (initial_rectangle : rectangle) : M bool :=
  _interface_sanity_check ;;;
  open <- request (StartPanel nm initial_rectangle)
                  (sk_interface_start_panel nm initial_rectangle) ;;
  _push_container_stack open panel nm ;;;
  ret open.

Definition end_panel (nm : string) : M unit :=
  _interface_sanity_check ;;;
  _pop_container_stack panel nm.

Definition start_popup (nm : string) : M bool :=
  _interface_sanity_check ;;;
  open <- request (StartPopup nm) (sk_interface_start_popup nm) ;;
  _push_container_stack open popup nm ;;;
  (if open then single_line_layout else ret tt) ;;;
  ret open.

Definition end_popup (nm : string) : M unit :=
  _interface_sanity_check ;;;
  _pop_container_stack popup nm.

Definition start_inset (nm : string) (height : Z) : M unit :=
  _interface_sanity_check ;;;
  set_layout_height height ;;;
  command (StartInset nm) (sk_interface_start_inset nm) ;;;
  _push_container_stack true inset nm.

Definition end_inset (nm : string) : M unit :=
  _interface_sanity_check ;;;
  _pop_container_stack inset nm.

Definition start_treenode (nm : string) : M bool :=
  _interface_sanity_check ;;;
  open <- request (StartTreenode nm) (sk_interface_start_treenode nm) ;;
  _push_container_stack open treenode nm ;;;
  ret open.

Definition end_treenode (nm : string) : M unit :=
  _interface_sanity_check ;;;
  _pop_container_stack treenode nm.

Definition open_popup (nm : string) : M unit :=
  _interface_sanity_check ;;;
  command (OpenPopup nm) (sk_interface_open_popup nm).

Definition enter_column : M unit :=
  _interface_sanity_check ;;;
  command StartColumn sk_interface_start_column ;;;
  _push_container_stack true column EmptyString.

Definition leave_column : M unit :=
  _interface_sanity_check ;;;
  _pop_container_stack column EmptyString.

Definition header (lbl : string) : M bool :=
  _interface_sanity_check ;;;
  open <- request (Header lbl) (sk_interface_header lbl) ;;
  _update_layout ;;;
  ret open.

Definition label (lbl : string) : M unit :=
  _interface_sanity_check ;;;
  command (Label lbl) (sk_interface_label lbl).

Definition paragraph (txt : string) : M unit :=
  _interface_sanity_check ;;;
  command (Text txt) (sk_interface_text txt).

Definition button (txt : string) : M bool :=
  _interface_sanity_check ;;;
  request (Button txt) (sk_interface_button txt).

Definition checkbox (txt : string) (value : bool) : M bool :=
  _interface_sanity_check ;;;
  request (Checkbox txt value) (sk_interface_checkbox txt value).

Definition slider (value min_value max_value : float) : M float :=
  _interface_sanity_check ;;;
  request (Slider value min_value max_value)
          (sk_interface_slider value min_value max_value).

Definition number_box (value step : float) : M float :=
  _interface_sanity_check ;;;
  request (Number value step) (sk_interface_number value step).

Definition text_box (value : string) : M string :=
  _interface_sanity_check ;;;
  request (TextBox value) (sk_interface_text_box value).

(** The overloads that take a label: a column of two cells, the label in
    the first and the control in the second. *)
Definition button_labeled (lbl txt : string) : M bool :=
  _interface_sanity_check ;;;
  enter_column ;;;
  _two_column_layout ;;;
  command (Label lbl) (sk_interface_label lbl) ;;;
  res <- button txt ;;
  leave_column ;;;
  ret res.

Definition checkbox_labeled (lbl txt : string) (value : bool) : M bool :=
  _interface_sanity_check ;;;
  enter_column ;;;
  _two_column_layout ;;;
  command (Label lbl) (sk_interface_label lbl) ;;;
  res <- checkbox txt value ;;
  leave_column ;;;
  ret res.

Definition slider_labeled (lbl : string) (value min_value max_value : float)
  : M float :=
  _interface_sanity_check ;;;
  enter_column ;;;
  _two_column_layout ;;;
  command (Label lbl) (sk_interface_label lbl) ;;;
  res <- slider value min_value max_value ;;
  leave_column ;;;
  ret res.

Definition number_box_labeled (lbl : string) (value step : float) : M float :=
  _interface_sanity_check ;;;
  enter_column ;;;
  _two_column_layout ;;;
  command (Label lbl) (sk_interface_label lbl) ;;;
  res <- number_box value step ;;
  leave_column ;;;
  ret res.

Definition text_box_labeled (lbl value : string) : M string :=
  _interface_sanity_check ;;;
  enter_column ;;;
  _two_column_layout ;;;
  command (Label lbl) (sk_interface_label lbl) ;;;
  res <- text_box value ;;
  leave_column ;;;
  ret res.

Definition last_element_changed : M bool :=
  gets (fun w => sk_interface_changed (driver w)).

Definition last_element_confirmed : M bool :=
  gets (fun w => sk_interface_confirmed (driver w)).

(** *** Callers

    What a caller can do with the public interface: the calls that open a
    container, the calls that close one, [draw_interface], and every
    other call. *)

Inductive opener : Type :=
| in_panel (nm : string) (initial_rectangle : rectangle)
| in_popup (nm : string)
| in_inset (nm : string) (height : Z)
| in_treenode (nm : string)
| in_column.

Inductive closer : Type :=
| out_panel (nm : string)
| out_popup (nm : string)
| out_inset (nm : string)
| out_treenode (nm : string)
| out_column.

Inductive plain_call : Type :=
| do_set_interface_font (fnt : font)
| do_set_interface_font_named (fnt : string)
| do_set_interface_font_size (sz : Z)
| do_set_interface_label_width (width : Z)
| do_open_popup (nm : string)
| do_reset_layout
| do_single_line_layout
| do_start_custom_layout
| do_add_column (width : Z)
| do_add_column_relative (width : double)
| do_set_layout_height (height : Z)
| do_header (lbl : string)
| do_label (lbl : string)
| do_paragraph (txt : string)
| do_button (txt : string)
| do_button_labeled (lbl txt : string)
| do_checkbox (txt : string) (value : bool)
| do_checkbox_labeled (lbl txt : string) (value : bool)
| do_slider (value min_value max_value : float)
| do_slider_labeled (lbl : string) (value min_value max_value : float)
| do_number_box (value step : float)
| do_number_box_labeled (lbl : string) (value step : float)
| do_text_box (value : string)
| do_text_box_labeled (lbl value : string)
| do_last_element_changed
| do_last_element_confirmed.

Inductive api_call : Type :=
| api_open (o : opener)
| api_close (c : closer)
| api_plain (c : plain_call)
| api_draw_interface.

Definition ignore {A} (m : M A) : M unit := m ;;; ret tt.

Definition start_container (o : opener) : M bool :=
  match o with
  | in_panel nm r => start_panel nm r
  | in_popup nm => start_popup nm
  | in_inset nm h => start_inset nm h ;;; ret true
  | in_treenode nm => start_treenode nm
  | in_column => enter_column ;;; ret true
  end.

Definition end_container (c : closer) : M unit :=
  match c with
  | out_panel nm => end_panel nm
  | out_popup nm => end_popup nm
  | out_inset nm => end_inset nm
  | out_treenode nm => end_treenode nm
  | out_column => leave_column
  end.

(** The call that closes what [o] opened. *)
Definition closer_of (o : opener) : closer :=
  match o with
  | in_panel nm _ => out_panel nm
  | in_popup nm => out_popup nm
  | in_inset nm _ => out_inset nm
  | in_treenode nm => out_treenode nm
  | in_column => out_column
  end.

Definition kind_of (o : opener) : panel_type :=
  match o with
  | in_panel _ _ => panel
  | in_popup _ => popup
  | in_inset _ _ => inset
  | in_treenode _ => treenode
  | in_column => column
  end.

Definition run_plain (c : plain_call) : M unit :=
  match c with
  | do_set_interface_font fnt => set_interface_font fnt
  | do_set_interface_font_named fnt => set_interface_font_named fnt
  | do_set_interface_font_size sz => set_interface_font_size sz
  | do_set_interface_label_width width => set_interface_label_width width
  | do_open_popup nm => open_popup nm
  | do_reset_layout => reset_layout
  | do_single_line_layout => single_line_layout
  | do_start_custom_layout => start_custom_layout
  | do_add_column width => add_column width
  | do_add_column_relative width => add_column_relative width
  | do_set_layout_height height => set_layout_height height
  | do_header lbl => ignore (header lbl)
  | do_label lbl => label lbl
  | do_paragraph txt => paragraph txt
  | do_button txt => ignore (button txt)
  | do_button_labeled lbl txt => ignore (button_labeled lbl txt)
  | do_checkbox txt value => ignore (checkbox txt value)
  | do_checkbox_labeled lbl txt value => ignore (checkbox_labeled lbl txt value)
  | do_slider value lo hi => ignore (slider value lo hi)
  | do_slider_labeled lbl value lo hi => ignore (slider_labeled lbl value lo hi)
  | do_number_box value step => ignore (number_box value step)
  | do_number_box_labeled lbl value step =>
      ignore (number_box_labeled lbl value step)
  | do_text_box value => ignore (text_box value)
  | do_text_box_labeled lbl value => ignore (text_box_labeled lbl value)
  | do_last_element_changed => ignore last_element_changed
  | do_last_element_confirmed => ignore last_element_confirmed
  end.

Definition run_call (c : api_call) : M unit :=
  match c with
  | api_open o => ignore (start_container o)
  | api_close c => end_container c
  | api_plain c => run_plain c
  | api_draw_interface => draw_interface
  end.

Fixpoint run_calls (cs : list api_call) : M unit :=
  match cs with
  | [] => ret tt
  | c :: cs' => run_call c ;;; run_calls cs'
  end.

(** A caller whose open and close calls are well nested: it closes a
    container, with the name it opened it under, exactly when the open
    call returned true (the two calls without a result always open), and
    after everything it did inside. *)
Inductive nesting : Type :=
| done
| plainly (c : plain_call) (rest : nesting)
| nest (o : opener) (body rest : nesting).

Fixpoint run_nesting (p : nesting) : M unit :=
  match p with
  | done => ret tt
  | plainly c rest => run_plain c ;;; run_nesting rest
  | nest o body rest =>
      open <- start_container o ;;
      (if open
       then run_nesting body ;;; end_container (closer_of o)
       else ret tt) ;;;
      run_nesting rest
  end.

End Engine.

(** ** Reading traces *)

Section Traces.

Context {P : Platform}.

Definition project {B} (f : event -> option B) (l : list event) : list B :=
  flat_map (fun e => match f e with Some b => [b] | None => [] end) l.

Definition driver_calls : list event -> list driver_call :=
  project (fun e => match e with Call c => Some c | _ => None end).

Definition warnings : list event -> list string :=
  project (fun e => match e with Warning m => Some m | _ => None end).

Definition pops : list event -> list container_info :=
  project (fun e => match e with Popped c => Some c | _ => None end).

Definition set_layout_calls : list event -> list (list Z * Z) :=
  project (fun e => match e with
                    | Call (SetLayout ws h) => Some (ws, h)
                    | _ => None
                    end).

(** Everything but the diagnostics and the restarts of the pre-call
    guard. *)
Definition visible (e : event) : bool :=
  match e with
  | Warning _ | Call Start => false
  | _ => true
  end.

(** Backend closes and stack pops, as they interleave. *)
Inductive close_or_pop : Type :=
| BackendClose (ty : panel_type)
| StackPop (c : container_info).

Definition closes_and_pops : list event -> list close_or_pop :=
  project (fun e => match e with
                    | Call (End ty) => Some (BackendClose ty)
                    | Popped c => Some (StackPop c)
                    | _ => None
                    end).

(** Every pop comes right after the backend close of the popped record's
    type, and every backend close is followed by such a pop. *)
Fixpoint close_then_pop (l : list close_or_pop) : bool :=
  match l with
  | [] => true
  | BackendClose ty :: StackPop c :: rest =>
      panel_type_eqb ty (type c) && close_then_pop rest
  | _ => false
  end.

(** Containers opening and closing in the backend. *)
Inductive bracket : Type :=
| Opens (ty : panel_type)
| Closes (ty : panel_type).

Definition brackets : list event -> list bracket :=
  project (fun e => match e with
                    | Call (StartPanel _ _ true) => Some (Opens panel)
                    | Call (StartPopup _ true) => Some (Opens popup)
                    | Call (StartInset _) => Some (Opens inset)
                    | Call (StartTreenode _ true) => Some (Opens treenode)
                    | Call StartColumn => Some (Opens column)
                    | Call (End ty) => Some (Closes ty)
                    | _ => None
                    end).

(** Runs the backend's side of the nesting: [open] holds the kinds open
    in the backend, innermost first; a close must be of the innermost
    kind. *)
Fixpoint lifo (l : list bracket) (open : list panel_type)
  : option (list panel_type) :=
  match l with
  | [] => Some open
  | Opens ty :: rest => lifo rest (ty :: open)
  | Closes ty :: rest =>
      match open with
      | top :: open' =>
          if panel_type_eqb ty top then lifo rest open' else None
      | [] => None
      end
  end.

End Traces.

Notation "x <- m ;; k" := (bind m (fun x => k))
  (at level 61, m at next level, right associativity).
Notation "m ;;; k" := (bind m (fun _ => k))
  (at level 61, right associativity).

(** ** Outcomes

    Names for what the engine leaves behind, used to state its
    properties. *)

Section Outcomes.

Context {P : Platform} {D : InterfaceDriver P}.

(** The driver after the pre-call guard, and what the guard traced. *)
Definition sanity_driver (b : backend) : backend :=
  let b1 := if negb (sk_interface_is_started b) then sk_interface_start b else b in
  if sk_interface_capacity_limited b1 then sk_interface_start b1 else b1.

Definition sanity_events (b : backend) : list event :=
  let b1 := if negb (sk_interface_is_started b) then sk_interface_start b else b in
  (if negb (sk_interface_is_started b)
   then [Warning msg_not_started; Call Start] else [])
  ++ (if sk_interface_capacity_limited b1
      then [Warning msg_too_many_items; Warning msg_cleared; Call Start]
      else []).

(** The driver function behind [_pop_container_by_type]. *)
Definition end_driver (ty : panel_type) : backend -> backend :=
  match ty with
  | panel => sk_interface_end_panel
  | popup => sk_interface_end_popup
  | inset => sk_interface_end_inset
  | treenode => sk_interface_end_treenode
  | column => sk_interface_end_column
  end.

(** A record that [(ty, nm)] does not designate. *)
Definition no_match (ty : panel_type) (nm : string) (c : container_info) : Prop :=
  is_container ty nm c = false.

(** The records to close, innermost first, as driver effect and trace. *)
Definition close_all (cs : list container_info) (b : backend) : backend :=
  fold_left (fun b c => end_driver (type c) b) cs b.

Definition close_events (cs : list container_info) : list event :=
  flat_map (fun c => [Call (End (type c)); Popped c]) cs.

Definition forced_close_events (cs : list container_info) : list event :=
  flat_map (fun c => [Warning (msg_not_closed c); Call (End (type c)); Popped c])
           cs.

Definition call_first_events (cs : list container_info) : list event :=
  map (fun c => Warning (msg_call_first c)) cs.

(** The error flag after the closing loop of [draw_interface]. *)
Definition flagged (rest : list container_info) (e : bool) : bool :=
  match rest with
  | [] => e
  | _ :: _ => true
  end.

(** The record [c] with another layout. *)
Definition with_layout (c : container_info) (widths : list Z) (height : Z)
  : container_info :=
  mk_container_info (type c) (name c) widths height.

(** The six layout mutators, and what each makes of the innermost record
    [c]; [width_px] is the width the driver reports for the container. *)
Definition layout_mutator (c : plain_call) : bool :=
  match c with
  | do_reset_layout | do_single_line_layout | do_start_custom_layout
  | do_add_column _ | do_add_column_relative _ | do_set_layout_height _ => true
  | _ => false
  end.

Definition mutated (m : plain_call) (width_px : Z) (c : container_info)
  : container_info :=
  match m with
  | do_reset_layout => with_layout c [-1] (layout_height c)
  | do_single_line_layout | do_start_custom_layout =>
      with_layout c [] (layout_height c)
  | do_add_column width =>
      with_layout c (layout_widths c ++ [width]) (layout_height c)
  | do_add_column_relative width =>
      with_layout c (layout_widths c ++ [scale_to_int width_px width])
                  (layout_height c)
  | do_set_layout_height height => with_layout c (layout_widths c) height
  | _ => c
  end.

(** Each record's backend close followed by its pop. *)
Definition close_pop_pairs (cs : list container_info) : list close_or_pop :=
  flat_map (fun c => [BackendClose (type c); StackPop c]) cs.

(** The five controls that take a label. *)
Definition labeled_control (c : plain_call) : bool :=
  match c with
  | do_button_labeled _ _ | do_checkbox_labeled _ _ _
  | do_slider_labeled _ _ _ _ | do_number_box_labeled _ _ _
  | do_text_box_labeled _ _ => true
  | _ => false
  end.

(** The control calls of the driver. *)
Definition control_call (c : driver_call) : bool :=
  match c with
  | Button _ _ | Checkbox _ _ _ | Slider _ _ _ _ | Number _ _ _
  | TextBox _ _ => true
  | _ => false
  end.

(** The common body of the five overloads that take a label. *)
Definition labeled {A} (lbl : string) (control : M A) : M A :=
  _interface_sanity_check ;;;
  enter_column ;;;
  _two_column_layout ;;;
  command (Label lbl) (sk_interface_label lbl) ;;;
  res <- control ;;
  leave_column ;;;
  ret res.

(** What the close algorithm compares: the type and the name of each
    record. *)
Definition keys (v : list container_info) : list (panel_type * string) :=
  map (fun c => (type c, name c)) v.

(** [does m w Q]: from [w], [m] returns some [a] in some world [w'],
    having added [d] to the trace, with [Q a d w']. *)
Definition does {A} (m : M A) (w : world)
    (Q : A -> list event -> world -> Prop) : Prop :=
  exists a w' d, m w = Some (a, w') /\ trace w' = trace w ++ d /\ Q a d w'.

(** A stretch [d] of trace from [w] to [w'] that leaves the stack with
    the same records (up to their layout) and the error flag as it was,
    in which the backend containers opened are closed again in LIFO
    order, and in which closes and pops go in pairs. *)
Definition steady (w : world) (d : list event) (w' : world) : Prop :=
  keys (container_stack w') = keys (container_stack w)
  /\ errors_occurred w' = errors_occurred w
  /\ (forall open, lifo (brackets d) open = Some open)
  /\ close_then_pop (closes_and_pops d) = true.

(** A stretch that opens one container of type [ty] and name [nm], in
    the backend and on the stack, and is otherwise steady. *)
Definition opening (ty : panel_type) (nm : string)
    (w : world) (d : list event) (w' : world) : Prop :=
  keys (container_stack w') = keys (container_stack w) ++ [(ty, nm)]
  /\ errors_occurred w' = errors_occurred w
  /\ (forall open, lifo (brackets d) open = Some (ty :: open))
  /\ close_then_pop (closes_and_pops d) = true.

(** A stretch that closes the innermost container, of type [ty] and
    name [nm], in the backend and on the stack. *)
Definition closing (ty : panel_type) (nm : string)
    (w : world) (d : list event) (w' : world) : Prop :=
  keys (container_stack w) = keys (container_stack w') ++ [(ty, nm)]
  /\ errors_occurred w' = errors_occurred w
  /\ (forall open, lifo (brackets d) (ty :: open) = Some open)
  /\ close_then_pop (closes_and_pops d) = true.

Definition keeps {A} (m : M A) : Prop :=
  forall w, does m w (fun _ d w' => steady w d w').

(** An event that no reading of the backend nesting or of the pops
    sees, and a computation that always returns, traces only such
    events, and leaves the records of the stack (up to their layout), the
    error flag and the label width as they were. *)
Definition quiet (e : event) : Prop :=
  brackets [e] = [] /\ closes_and_pops [e] = [].

Definition silent {A} (m : M A) : Prop :=
  forall v e lw b t,
    exists a v' b' d,
      m (mk_world v e lw b t) = Some (a, mk_world v' e lw b' (t ++ d))
      /\ keys v' = keys v
      /\ brackets d = []
      /\ closes_and_pops d = [].

Definition name_of (o : opener) : string :=
  match o with
  | in_panel nm _ | in_popup nm | in_inset nm _ | in_treenode nm => nm
  | in_column => EmptyString
  end.

(** An open call returns; when it answers true it has opened a container
    of its type and name in the backend and on the stack, otherwise it
    has opened nothing. *)
Definition opened_or_not (o : opener) (w : world) : Prop :=
  does (start_container o) w
    (fun open d w' =>
       if open then opening (kind_of o) (name_of o) w d w' else steady w d w').

(** A control: the guard, then one control call to the driver. *)
Definition plain_control {A} (ctl : M A) : Prop :=
  forall v e lw b t,
    exists r b' c,
      ctl (mk_world v e lw b t)
      = Some (r, mk_world v e lw b' (t ++ sanity_events b ++ [Call c]))
      /\ control_call c = true.

(** What a labeled control shows in the trace, guard aside. *)
Definition labeled_events (lw : Z) (lbl : string) (c : driver_call)
  : list event :=
  [Call StartColumn;
   Pushed (new_container column EmptyString);
   Call (SetLayout [-1] 0);
   Call (SetLayout [lw; -1] 0);
   Call (Label lbl);
   Call c;
   Call (End column);
   Popped (with_layout (new_container column EmptyString) [lw; -1] 0)].

(** Closes and pops go in pairs in [d]. *)
Definition paired (d : list event) : Prop :=
  close_then_pop (closes_and_pops d) = true.

(** *** Further outcomes *)



(** Whether [(ty, nm)] designates the innermost record of [v]. *)
Definition innermost_matches (ty : panel_type) (nm : string)
    (v : list container_info) : bool :=
  match rev v with
  | top :: _ => is_container ty nm top
  | [] => false
  end.

(** What a close call that finds no record logs. *)
Definition orphan_messages (ty : panel_type) (nm : string)
    (v : list container_info) : list string :=
  match rev v with
  | [] => [msg_nothing_started ty nm]
  | top :: _ => [msg_no_such_container ty nm; msg_expecting top]
  end.


(** [v] with its innermost record changed by [f]. *)
Definition change_back (f : container_info -> container_info)
    (v : list container_info) : list container_info :=
  match rev v with
  | [] => []
  | c :: below => rev below ++ [f c]
  end.

(** The record an open call leaves innermost when it opens, and what it
    makes of the stack it found: [start_inset] gives its height to the
    record that holds the inset, [start_popup] clears the widths of the
    popup it opened. *)
Definition opened_record (o : opener) : container_info :=
  match o with
  | in_popup nm => with_layout (new_container popup nm) [] 0
  | _ => new_container (kind_of o) (name_of o)
  end.

Definition holder_after_open (o : opener) (v : list container_info)
  : list container_info :=
  match o with
  | in_inset _ height =>
      change_back (fun c => with_layout c (layout_widths c) height) v
  | _ => v
  end.

Definition stack_after_open (o : opener) (opened : bool)
    (v : list container_info) : list container_info :=
  if opened then holder_after_open o v ++ [opened_record o]
  else holder_after_open o v.

(** A caller adding columns one after the other. *)
Fixpoint add_columns (widths : list Z) : M unit :=
  match widths with
  | [] => ret tt
  | width :: rest => add_column width ;;; add_columns rest
  end.

(** The layouts sent while the columns [widths] are added to [before]:
    after each column, the columns so far. *)
Definition sent_layouts (before widths : list Z) (height : Z)
  : list (list Z * Z) :=
  map (fun k => (before ++ firstn k widths, height))
      (seq 1 (List.length widths)).

(** The four ways through the close algorithm, with what each leaves. *)
Inductive close_case (ty : panel_type) (nm : string)
    (v : list container_info) (e : bool)
  : list container_info -> bool -> list string -> list container_info -> Prop :=
| close_nothing_open :
    v = [] ->
    close_case ty nm v e [] true [msg_nothing_started ty nm] []
| close_matching v' top :
    v = v' ++ [top] -> is_container ty nm top = true ->
    close_case ty nm v e v' e [] [top]
| close_missing v' top :
    v = v' ++ [top] -> Forall (no_match ty nm) v ->
    close_case ty nm v e v true
      [msg_no_such_container ty nm; msg_expecting top] []
| close_premature below target above top :
    v = below ++ target :: above ++ [top] ->
    is_container ty nm target = true ->
    Forall (no_match ty nm) (above ++ [top]) ->
    close_case ty nm v e below true
      ([msg_too_early ty nm; msg_call_these_first]
         ++ map msg_call_first (rev (above ++ [top])))
      (rev (target :: above ++ [top])).

(** What an open call returns. *)
Definition opens_into (o : opener) (v : list container_info) (e : bool)
    (lw : Z) (r : option (bool * world)) : Prop :=
  exists opened b' t',
    r = Some (opened, mk_world (stack_after_open o opened v) e lw b' t')
    /\ (kind_of o = inset \/ kind_of o = column -> opened = true).

(** A computation that always returns and changes nothing of the engine
    but the driver and the trace. *)
Definition still {A} (m : M A) : Prop :=
  forall v e lw b t,
    exists a b' t', m (mk_world v e lw b t) = Some (a, mk_world v e lw b' t').

End Outcomes.

(** ** A small driver to run the engine on

    It counts the items created since the last start, refuses more than
    [capacity] of them, keeps the kinds of the containers open in it, and
    shows a popup only once [sk_interface_open_popup] has named it. *)

Module Demo.

#[export] Instance platform : Platform := {|
  rectangle := Z * Z * Z * Z;
  font := string;
  float := Z;
  double := Z;
  drawing_options := unit;
  option_defaults := tt;
  font_named := fun s => s;
  scale_to_int := fun w percent => Z.quot (w * percent) 100
|}.

Record state : Type := mk_state {
  started : bool;
  items : nat;
  open : list panel_type;
  popups : list string
}.

Definition capacity : nat := 64.

Definition item (b : state) : state :=
  mk_state (started b) (S (items b)) (open b) (popups b).

Definition opening (ty : panel_type) (b : state) : state :=
  mk_state (started b) (S (items b)) (ty :: open b) (popups b).

Definition closing (b : state) : state :=
  mk_state (started b) (items b) (tl (open b)) (popups b).

Definition has_popup (nm : string) (b : state) : bool :=
  existsb (String.eqb nm) (popups b).

#[export] Instance counting_driver : InterfaceDriver platform := {|
  backend := state;
  sk_interface_is_started := started;
  sk_interface_capacity_limited := fun b => Nat.leb capacity (items b);
  sk_interface_start := fun b => mk_state true 0 [] (popups b);
  sk_interface_draw := fun _ b => mk_state false 0 [] (popups b);
  sk_interface_set_layout := fun _ _ b => b;
  sk_interface_get_container_size := fun _ => (200, 100);
  sk_interface_style_set_font := fun _ b => b;
  sk_interface_style_set_font_size := fun _ b => b;
  sk_interface_start_panel := fun _ _ b => (true, opening panel b);
  sk_interface_end_panel := closing;
  sk_interface_start_popup := fun nm b =>
    if has_popup nm b then (true, opening popup b) else (false, b);
  sk_interface_end_popup := closing;
  sk_interface_start_inset := fun _ b => opening inset b;
  sk_interface_end_inset := closing;
  sk_interface_start_treenode := fun _ b => (true, opening treenode b);
  sk_interface_end_treenode := closing;
  sk_interface_start_column := opening column;
  sk_interface_end_column := closing;
  sk_interface_open_popup := fun nm b =>
    mk_state (started b) (items b) (open b) (nm :: popups b);
  sk_interface_header := fun _ b => (true, item b);
  sk_interface_label := fun _ b => item b;
  sk_interface_text := fun _ b => item b;
  sk_interface_button := fun _ b => (false, item b);
  sk_interface_checkbox := fun _ v b => (v, item b);
  sk_interface_slider := fun v _ _ b => (v, item b);
  sk_interface_number := fun v _ b => (v, item b);
  sk_interface_text_box := fun v b => (v, item b);
  sk_interface_changed := fun _ => false;
  sk_interface_confirmed := fun _ => false
|}.

(** A frame already started, nothing open yet. *)
Definition fresh : world :=
  mk_world [] false 60 (mk_state true 0 [] []) [].

(** The world in which the containers [v] (outermost first) were pushed
    and nothing has been traced yet. *)
Definition holding (v : list container_info) : world :=
  mk_world v false 60 (mk_state true 0 (rev (map type v)) []) [].

End Demo.

(** ** Properties *)

Section Proofs.

Context {P : Platform} {D : InterfaceDriver P}.

(** *** Projections of traces *)

Lemma project_app {B} (f : event -> option B) (l1 l2 : list event) :
  project f (l1 ++ l2) = project f l1 ++ project f l2.
Proof. unfold project. apply flat_map_app. Qed.

Lemma project_cons {B} (f : event -> option B) (e : event) (l : list event) :
  project f (e :: l) =
  match f e with Some b => b :: project f l | None => project f l end.
Proof. unfold project. simpl. now destruct (f e). Qed.

(** A projection that sees no diagnostic and no restart sees the same in
    a trace and in its visible part. *)
Lemma project_visible {B} (f : event -> option B) (l : list event) :
  (forall e, visible e = false -> f e = None) ->
  project f (filter visible l) = project f l.
Proof.
  intros Hf. induction l as [|e l IH]; [reflexivity|].
  cbn [filter]. rewrite (project_cons f e l). destruct (visible e) eqn:E.
  - rewrite project_cons, IH. reflexivity.
  - rewrite (Hf e E). exact IH.
Qed.

Lemma invisible_cases (e : event) :
  visible e = false -> (exists m, e = Warning m) \/ e = Call Start.
Proof.
  destruct e as [c| m | c | c]; simpl; try discriminate.
  - destruct c; try discriminate. now right.
  - left. now exists m.
Qed.

Lemma closes_and_pops_visible (l : list event) :
  closes_and_pops (filter visible l) = closes_and_pops l.
Proof.
  apply project_visible. intros e H.
  destruct (invisible_cases e H) as [[m ->] | ->]; reflexivity.
Qed.

Lemma brackets_visible (l : list event) :
  brackets (filter visible l) = brackets l.
Proof.
  apply project_visible. intros e H.
  destruct (invisible_cases e H) as [[m ->] | ->]; reflexivity.
Qed.

Lemma set_layout_calls_visible (l : list event) :
  set_layout_calls (filter visible l) = set_layout_calls l.
Proof.
  apply project_visible. intros e H.
  destruct (invisible_cases e H) as [[m ->] | ->]; reflexivity.
Qed.

(** *** The primitives, on a world spelled out *)

Lemma bind_Some {A B} (m : M A) (k : A -> M B) (w w1 : world) (a : A) :
  m w = Some (a, w1) -> bind m k w = k a w1.
Proof. unfold bind. now intros ->. Qed.

Lemma length_snoc_eqb {A} (v : list A) (c : A) :
  Nat.eqb (List.length (v ++ [c])) 0 = false.
Proof. rewrite length_app. simpl. rewrite Nat.add_1_r. reflexivity. Qed.

Lemma nth_error_snoc {A} (v : list A) (c : A) :
  nth_error (v ++ [c]) (List.length v) = Some c.
Proof.
  rewrite nth_error_app2 by lia. now rewrite Nat.sub_diag.
Qed.

Lemma size_eq v e lw b t :
  size (mk_world v e lw b t) = Some (List.length v, mk_world v e lw b t).
Proof. reflexivity. Qed.

Lemma rbegin_eq v e lw b t :
  rbegin (mk_world v e lw b t) = Some (List.length v, mk_world v e lw b t).
Proof. reflexivity. Qed.

Lemma clog_eq msg v e lw b t :
  clog msg (mk_world v e lw b t)
  = Some (tt, mk_world v e lw b (t ++ [Warning msg])).
Proof. reflexivity. Qed.

Lemma set_errors_occurred_eq x v e lw b t :
  set_errors_occurred x (mk_world v e lw b t)
  = Some (tt, mk_world v x lw b t).
Proof. reflexivity. Qed.

Lemma deref_last v c e lw b t :
  deref (S (List.length v)) (mk_world (v ++ [c]) e lw b t)
  = Some (c, mk_world (v ++ [c]) e lw b t).
Proof. unfold deref. simpl. now rewrite nth_error_snoc. Qed.

Lemma back_eq v c e lw b t :
  back (mk_world (v ++ [c]) e lw b t)
  = Some (c, mk_world (v ++ [c]) e lw b t).
Proof.
  unfold back, size, gets, bind. simpl.
  rewrite length_app. simpl. rewrite Nat.add_1_r. apply deref_last.
Qed.

Lemma pop_back_eq v c e lw b t :
  pop_back (mk_world (v ++ [c]) e lw b t)
  = Some (tt, mk_world v e lw b (t ++ [Popped c])).
Proof.
  unfold pop_back. rewrite (bind_Some _ _ _ _ _ (back_eq v c e lw b t)).
  cbv [bind gets set_container_stack emit container_stack errors_occurred
       label_width driver trace].
  now rewrite removelast_last.
Qed.

Lemma set_back_eq f v c e lw b t :
  set_back f (mk_world (v ++ [c]) e lw b t)
  = Some (tt, mk_world (v ++ [f c]) e lw b t).
Proof.
  unfold set_back. rewrite (bind_Some _ _ _ _ _ (back_eq v c e lw b t)).
  cbv [bind gets set_container_stack emit container_stack errors_occurred
       label_width driver trace].
  now rewrite removelast_last.
Qed.

Lemma sanity_eq v e lw b t :
  _interface_sanity_check (mk_world v e lw b t)
  = Some (tt, mk_world v e lw (sanity_driver b) (t ++ sanity_events b)).
Proof.
  unfold _interface_sanity_check, sanity_driver, sanity_events.
  cbv [bind gets clog command set_driver emit ret container_stack
       errors_occurred label_width driver trace].
  destruct (sk_interface_is_started b); simpl.
  - destruct (sk_interface_capacity_limited b); simpl;
      rewrite <- ?app_assoc; simpl; rewrite ?app_nil_r; reflexivity.
  - destruct (sk_interface_capacity_limited (sk_interface_start b)); simpl;
      rewrite <- ?app_assoc; simpl; rewrite ?app_nil_r; reflexivity.
Qed.

Lemma sanity_events_invisible b : filter visible (sanity_events b) = [].
Proof.
  unfold sanity_events.
  destruct (negb (sk_interface_is_started b)),
    (sk_interface_capacity_limited _); reflexivity.
Qed.

Lemma _update_layout_nil e lw b t :
  _update_layout (mk_world [] e lw b t) = Some (tt, mk_world [] e lw b t).
Proof. reflexivity. Qed.

Lemma _update_layout_eq v c e lw b t :
  _update_layout (mk_world (v ++ [c]) e lw b t)
  = Some (tt, mk_world (v ++ [c]) e lw
                (sk_interface_set_layout (layout_widths c) (layout_height c) b)
                (t ++ [Call (SetLayout (layout_widths c) (layout_height c))])).
Proof.
  unfold _update_layout.
  cbv [bind size gets container_stack]. rewrite length_snoc_eqb.
  fold (@bind _ _ container_info unit).
  rewrite back_eq. reflexivity.
Qed.

Lemma _pop_container_by_type_eq ty v e lw b t :
  _pop_container_by_type ty (mk_world v e lw b t)
  = Some (tt, mk_world v e lw (end_driver ty b) (t ++ [Call (End ty)])).
Proof. destruct ty; reflexivity. Qed.

(** *** Iterators and the loops *)

Lemma deref_at pre x post e lw b t :
  deref (S (List.length pre)) (mk_world (pre ++ x :: post) e lw b t)
  = Some (x, mk_world (pre ++ x :: post) e lw b t).
Proof.
  unfold deref. simpl.
  rewrite nth_error_app2 by lia. now rewrite Nat.sub_diag.
Qed.

Lemma for_riter_done (i : riter) body (w : world) :
  for_riter i i body w = Some (tt, w).
Proof. destruct i; simpl; rewrite ?Nat.eqb_refl; reflexivity. Qed.

Lemma for_riter_step (i last : riter) body (w : world) :
  Nat.eqb (S i) last = false ->
  for_riter (S i) last body w = (body (S i) ;;; for_riter i last body) w.
Proof. intros H. cbn [for_riter]. now rewrite H. Qed.

Lemma length_snoc {A} (v : list A) (x : A) :
  List.length (v ++ [x]) = S (List.length v).
Proof. rewrite length_app. simpl. lia. Qed.

Lemma above_neq {A} (below r : list A) :
  Nat.eqb (S (List.length (below ++ r))) (List.length below) = false.
Proof. apply Nat.eqb_neq. rewrite length_app. lia. Qed.

(** The search stops at the innermost record that matches. *)
Lemma find_correct_container_found ty nm below target above post e lw b t :
  is_container ty nm target = true ->
  Forall (no_match ty nm) above ->
  find_correct_container (List.length (below ++ target :: above)) ty nm
    (mk_world (below ++ target :: above ++ post) e lw b t)
  = Some (S (List.length below),
          mk_world (below ++ target :: above ++ post) e lw b t).
Proof.
  intros Ht. revert post.
  induction above as [|x above IH] using rev_ind; intros post Hab.
  - replace (List.length (below ++ [target])) with (S (List.length below))
      by (rewrite length_app; simpl; lia).
    cbn [find_correct_container].
    rewrite (bind_Some _ _ _ _ _ (deref_at below target ([] ++ post) e lw b t)).
    now rewrite Ht.
  - apply Forall_app in Hab. destruct Hab as [Hab Hx].
    inversion Hx as [|? ? Hx' _]; subst.
    replace (below ++ target :: above ++ [x])
      with ((below ++ target :: above) ++ [x])
      by (now rewrite <- app_assoc).
    rewrite length_snoc. cbn [find_correct_container].
    replace (below ++ target :: (above ++ [x]) ++ post)
      with ((below ++ target :: above) ++ x :: post)
      by (repeat (rewrite <- app_assoc; simpl); reflexivity).
    rewrite (bind_Some _ _ _ _ _ (deref_at _ x post e lw b t)).
    unfold no_match in Hx'. rewrite Hx'.
    replace ((below ++ target :: above) ++ x :: post)
      with (below ++ target :: above ++ x :: post)
      by (now rewrite <- app_assoc).
    apply (IH (x :: post) Hab).
Qed.

(** It runs to [rend] when no record matches. *)
Lemma find_correct_container_missing ty nm v post e lw b t :
  Forall (no_match ty nm) v ->
  find_correct_container (List.length v) ty nm (mk_world (v ++ post) e lw b t)
  = Some (rend, mk_world (v ++ post) e lw b t).
Proof.
  revert post. induction v as [|x v IH] using rev_ind; intros post Hv.
  - reflexivity.
  - apply Forall_app in Hv. destruct Hv as [Hv Hx].
    inversion Hx as [|? ? Hx' _]; subst.
    rewrite length_snoc. cbn [find_correct_container].
    rewrite <- app_assoc. cbn [app].
    rewrite (bind_Some _ _ _ _ _ (deref_at v x post e lw b t)).
    unfold no_match in Hx'. rewrite Hx'.
    apply (IH (x :: post) Hv).
Qed.

Lemma call_first_loop below above post e lw b t :
  for_riter (List.length (below ++ above)) (List.length below)
    (fun i => c <- deref i ;; clog (msg_call_first c))
    (mk_world (below ++ above ++ post) e lw b t)
  = Some (tt, mk_world (below ++ above ++ post) e lw b
                (t ++ call_first_events (rev above))).
Proof.
  revert post t. induction above as [|x above IH] using rev_ind; intros post t.
  - rewrite !app_nil_r. rewrite for_riter_done. cbn.
    rewrite ?app_nil_r. reflexivity.
  - rewrite app_assoc, length_snoc.
    rewrite for_riter_step by apply above_neq.
    replace (below ++ (above ++ [x]) ++ post)
      with ((below ++ above) ++ x :: post)
      by (rewrite <- !app_assoc; reflexivity).
    unfold bind at 1.
    rewrite (bind_Some _ _ _ _ _ (deref_at _ x post e lw b t)).
    cbv [clog emit container_stack errors_occurred label_width driver trace].
    rewrite <- app_assoc.
    rewrite (IH (x :: post)).
    rewrite rev_app_distr. simpl. now rewrite <- app_assoc.
Qed.

Lemma unwind_loop below rest e lw b t :
  for_riter (List.length (below ++ rest)) (List.length below)
    (fun i => c <- deref i ;; _pop_container_by_type (type c) ;;; pop_back)
    (mk_world (below ++ rest) e lw b t)
  = Some (tt, mk_world below e lw (close_all (rev rest) b)
                (t ++ close_events (rev rest))).
Proof.
  revert b t. induction rest as [|x rest IH] using rev_ind; intros b t.
  - rewrite !app_nil_r. rewrite for_riter_done. cbn.
    rewrite ?app_nil_r. reflexivity.
  - rewrite app_assoc, length_snoc.
    rewrite for_riter_step by apply above_neq.
    unfold bind at 1.
    rewrite (bind_Some _ _ _ _ _ (deref_last _ x e lw b t)).
    unfold bind at 1. rewrite _pop_container_by_type_eq, pop_back_eq.
    rewrite IH. rewrite rev_app_distr. simpl.
    now rewrite <- !app_assoc.
Qed.

Lemma flagged_snoc rest x e : flagged (rest ++ [x]) e = true.
Proof. now destruct rest. Qed.

Lemma flagged_true rest : flagged rest true = true.
Proof. now destruct rest. Qed.

Lemma forced_close_loop rest e lw b t :
  for_riter (List.length rest) rend
    (fun i =>
       c <- deref i ;;
       clog (msg_not_closed c) ;;;
       c <- deref i ;;
       _pop_container_by_type (type c) ;;;
       pop_back ;;;
       set_errors_occurred true)
    (mk_world rest e lw b t)
  = Some (tt, mk_world [] (flagged rest e) lw (close_all (rev rest) b)
                (t ++ forced_close_events (rev rest))).
Proof.
  revert e b t. induction rest as [|x rest IH] using rev_ind; intros e b t.
  - cbn. now rewrite app_nil_r.
  - rewrite length_snoc.
    rewrite for_riter_step by reflexivity.
    unfold bind at 1.
    rewrite (bind_Some _ _ _ _ _ (deref_last _ x e lw b t)).
    unfold bind at 1.
    cbv [clog emit container_stack errors_occurred label_width driver trace].
    rewrite (bind_Some _ _ _ _ _ (deref_last _ x e lw b _)).
    unfold bind at 1. rewrite _pop_container_by_type_eq.
    unfold bind at 1. rewrite pop_back_eq.
    cbv [set_errors_occurred container_stack errors_occurred label_width
         driver trace].
    rewrite IH. rewrite rev_app_distr, flagged_snoc, flagged_true. simpl.
    now rewrite <- !app_assoc.
Qed.

Lemma close_unclosed_eq rest e lw b t :
  close_unclosed (mk_world rest e lw b t)
  = Some (tt, mk_world [] (flagged rest e) lw (close_all (rev rest) b)
                (t ++ forced_close_events (rev rest))).
Proof.
  unfold close_unclosed.
  rewrite (bind_Some _ _ _ _ _ (rbegin_eq rest e lw b t)).
  apply forced_close_loop.
Qed.

(** *** The four ways through [_pop_container_stack] *)

Lemma is_container_iff ty nm c :
  is_container ty nm c = true <-> type c = ty /\ name c = nm.
Proof.
  unfold is_container. rewrite andb_true_iff, panel_type_eqb_eq, String.eqb_eq.
  reflexivity.
Qed.

Lemma no_match_iff ty nm c :
  no_match ty nm c <-> ~ (type c = ty /\ name c = nm).
Proof.
  unfold no_match. rewrite <- is_container_iff.
  destruct (is_container ty nm c); split; intros H; congruence.
Qed.

Lemma none_match ty nm (v : list container_info) :
  (forall c, In c v -> ~ (type c = ty /\ name c = nm)) ->
  Forall (no_match ty nm) v.
Proof.
  intros H. apply Forall_forall. intros c Hc. apply no_match_iff. auto.
Qed.

Lemma pop_nothing_open ty nm e lw b t :
  _pop_container_stack ty nm (mk_world [] e lw b t)
  = Some (tt, mk_world [] true lw b (t ++ [Warning (msg_nothing_started ty nm)])).
Proof. reflexivity. Qed.

Lemma pop_matching ty nm v c e lw b t :
  is_container ty nm c = true ->
  _pop_container_stack ty nm (mk_world (v ++ [c]) e lw b t)
  = Some (tt, mk_world v e lw (end_driver (type c) b)
                (t ++ [Call (End (type c)); Popped c])).
Proof.
  intros Hc. unfold _pop_container_stack.
  rewrite (bind_Some _ _ _ _ _ (size_eq (v ++ [c]) e lw b t)).
  rewrite length_snoc_eqb.
  rewrite (bind_Some _ _ _ _ _ (back_eq v c e lw b t)).
  rewrite Hc. unfold bind.
  rewrite _pop_container_by_type_eq, pop_back_eq.
  now rewrite <- app_assoc.
Qed.

Lemma pop_missing ty nm v c e lw b t :
  Forall (no_match ty nm) (v ++ [c]) ->
  _pop_container_stack ty nm (mk_world (v ++ [c]) e lw b t)
  = Some (tt, mk_world (v ++ [c]) true lw b
                (t ++ [Warning (msg_no_such_container ty nm);
                       Warning (msg_expecting c)])).
Proof.
  intros Hv. pose proof Hv as Hv'.
  apply Forall_app in Hv'. destruct Hv' as [_ Hc].
  inversion Hc as [|? ? Hc' _]; subst. unfold no_match in Hc'.
  unfold _pop_container_stack.
  rewrite (bind_Some _ _ _ _ _ (size_eq (v ++ [c]) e lw b t)).
  rewrite length_snoc_eqb.
  rewrite (bind_Some _ _ _ _ _ (back_eq v c e lw b t)).
  rewrite Hc'. unfold bind at 1.
  cbv [set_errors_occurred container_stack errors_occurred label_width
       driver trace].
  rewrite (bind_Some _ _ _ _ _ (rbegin_eq (v ++ [c]) true lw b t)).
  pose proof (find_correct_container_missing ty nm (v ++ [c]) [] true lw b t Hv)
    as Hfind.
  rewrite app_nil_r in Hfind.
  rewrite (bind_Some _ _ _ _ _ Hfind).
  cbn [Nat.eqb rend]. unfold bind.
  cbv [clog emit container_stack errors_occurred label_width driver trace].
  now rewrite <- app_assoc.
Qed.

Lemma pop_premature ty nm below target above top e lw b t :
  is_container ty nm target = true ->
  Forall (no_match ty nm) (above ++ [top]) ->
  _pop_container_stack ty nm
    (mk_world (below ++ target :: above ++ [top]) e lw b t)
  = Some (tt, mk_world below true lw
                (close_all (rev (target :: above ++ [top])) b)
                (t ++ [Warning (msg_too_early ty nm);
                       Warning msg_call_these_first]
                   ++ call_first_events (rev (above ++ [top]))
                   ++ close_events (rev (target :: above ++ [top])))).
Proof.
  intros Ht Hab. pose proof Hab as Hab'.
  apply Forall_app in Hab'. destruct Hab' as [_ Htop].
  inversion Htop as [|? ? Htop' _]; subst. unfold no_match in Htop'.
  remember (below ++ target :: above ++ [top]) as v eqn:Ev.
  assert (Hv : v = (below ++ target :: above) ++ [top])
    by (subst v; now rewrite <- app_assoc).
  assert (Hlen : Nat.eqb (List.length v) 0 = false)
    by (rewrite Hv; apply length_snoc_eqb).
  assert (Hback : forall e' t', back (mk_world v e' lw b t')
                                = Some (top, mk_world v e' lw b t'))
    by (intros; rewrite Hv; apply back_eq).
  unfold _pop_container_stack.
  rewrite (bind_Some _ _ _ _ _ (size_eq v e lw b t)), Hlen.
  rewrite (bind_Some _ _ _ _ _ (Hback e t)).
  rewrite Htop'. unfold bind at 1. rewrite set_errors_occurred_eq.
  rewrite (bind_Some _ _ _ _ _ (rbegin_eq v true lw b t)).
  pose proof (find_correct_container_found ty nm below target (above ++ [top])
                [] true lw b t Ht Hab) as Hfind.
  rewrite app_nil_r, <- Ev in Hfind.
  rewrite (bind_Some _ _ _ _ _ Hfind).
  cbn [Nat.eqb rend Nat.pred].
  unfold bind at 1. rewrite clog_eq.
  unfold bind at 1. rewrite clog_eq.
  rewrite (bind_Some _ _ _ _ _ (rbegin_eq v true lw b _)).
  unfold bind at 1.
  pose proof (call_first_loop (below ++ [target]) (above ++ [top]) [] true lw b
                ((t ++ [Warning (msg_too_early ty nm)])
                   ++ [Warning msg_call_these_first])) as Hloop.
  rewrite app_nil_r, length_snoc in Hloop.
  replace ((below ++ [target]) ++ above ++ [top]) with v in Hloop
    by (subst v; now rewrite <- app_assoc).
  rewrite Hloop.
  rewrite (bind_Some _ _ _ _ _ (rbegin_eq v true lw b _)).
  rewrite Ev.
  rewrite unwind_loop.
  repeat (rewrite <- app_assoc; cbn [app]). reflexivity.
Qed.

(** *** Closing a container *)

(** C1.  A close call whose type and name designate a record below the
    innermost one (no record above it has that type and name) sets the
    error flag and unwinds: after the diagnostics, the trace holds, for
    the innermost record first and the designated record last, the
    backend close of the record's type followed by its pop, once each;
    the driver went through exactly these closes, and the stack is what
    lay below the designated record. *)
Theorem premature_close_unwinds (w : world) (ty : panel_type) (nm : string)
    (below above : list container_info) (target top : container_info) :
  container_stack w = below ++ target :: above ++ [top] ->
  type target = ty -> name target = nm ->
  (forall c, In c (above ++ [top]) -> ~ (type c = ty /\ name c = nm)) ->
  exists msgs,
    _pop_container_stack ty nm w
    = Some (tt, mk_world below true (label_width w)
                  (close_all (rev (target :: above ++ [top])) (driver w))
                  (trace w ++ map Warning msgs
                     ++ close_events (rev (target :: above ++ [top])))).
Proof.
  intros Hw Hty Hnm Habove.
  destruct w as [v e lw b t]. simpl in *. subst v.
  exists ([msg_too_early ty nm; msg_call_these_first]
            ++ map msg_call_first (rev (above ++ [top]))).
  rewrite pop_premature.
  - unfold call_first_events. rewrite map_app, map_map.
    repeat (rewrite <- app_assoc; cbn [app map]). reflexivity.
  - apply is_container_iff. now split.
  - now apply none_match.
Qed.

(** C2.  A close call whose type and name are those of the innermost
    record issues the backend close of that type once, pops that one
    record, and leaves the error flag as it was. *)
Theorem matching_close_pops_top (w : world) (ty : panel_type) (nm : string)
    (v : list container_info) (top : container_info) :
  container_stack w = v ++ [top] ->
  type top = ty -> name top = nm ->
  _pop_container_stack ty nm w
  = Some (tt, mk_world v (errors_occurred w) (label_width w)
                (end_driver ty (driver w))
                (trace w ++ [Call (End ty); Popped top])).
Proof.
  intros Hw Hty Hnm. destruct w as [v0 e lw b t]. simpl in *. subst v0.
  rewrite pop_matching by (apply is_container_iff; now split).
  now rewrite Hty.
Qed.

(** C3.  A close call whose type and name designate no record of the
    stack, empty or not, leaves the stack and the driver as they were,
    traces diagnostics only, and sets the error flag. *)
Theorem orphan_close_is_inert (w : world) (ty : panel_type) (nm : string) :
  (forall c, In c (container_stack w) -> ~ (type c = ty /\ name c = nm)) ->
  exists msgs,
    _pop_container_stack ty nm w
    = Some (tt, mk_world (container_stack w) true (label_width w) (driver w)
                  (trace w ++ map Warning msgs)).
Proof.
  intros Hnone. destruct w as [v e lw b t]. simpl in *.
  destruct v as [|x v'] using rev_ind.
  - exists [msg_nothing_started ty nm]. apply pop_nothing_open.
  - exists [msg_no_such_container ty nm; msg_expecting x].
    apply pop_missing. now apply none_match.
Qed.

(** *** Drawing *)

Lemma report_and_draw_eq v e lw b t :
  report_and_draw (mk_world v e lw b t)
  = Some (tt, mk_world v false lw (sk_interface_draw option_defaults b)
                (t ++ (if e then [Warning msg_errors_occurred] else [])
                   ++ [Call (Draw option_defaults)])).
Proof.
  unfold report_and_draw.
  cbv [bind gets clog emit set_errors_occurred command set_driver ret
       container_stack errors_occurred label_width driver trace].
  destruct e; cbn [app]; now rewrite <- ?app_assoc.
Qed.

(** C5.  [draw_interface], after the pre-call guard, closes in the
    backend and pops every record still on the stack, innermost first,
    which empties the stack and sets the error flag when there was a
    record; it then reports the flag, clears it, and draws. *)
Theorem draw_closes_everything (w : world) :
  exists w1 w2 w3,
    _interface_sanity_check w = Some (tt, w1)
    /\ container_stack w1 = container_stack w
    /\ errors_occurred w1 = errors_occurred w
    /\ close_unclosed w1 = Some (tt, w2)
    /\ w2 = mk_world [] (flagged (container_stack w) (errors_occurred w))
              (label_width w)
              (close_all (rev (container_stack w)) (driver w1))
              (trace w1 ++ forced_close_events (rev (container_stack w)))
    /\ report_and_draw w2 = Some (tt, w3)
    /\ w3 = mk_world [] false (label_width w)
              (sk_interface_draw option_defaults (driver w2))
              (trace w2
                 ++ (if errors_occurred w2
                     then [Warning msg_errors_occurred] else [])
                 ++ [Call (Draw option_defaults)])
    /\ draw_interface w = Some (tt, w3).
Proof.
  destruct w as [v e lw b t].
  eexists. eexists. eexists.
  split; [apply sanity_eq|].
  split; [reflexivity|]. split; [reflexivity|].
  split; [apply close_unclosed_eq|].
  split; [reflexivity|].
  split; [apply report_and_draw_eq|].
  split; [reflexivity|].
  unfold draw_interface, bind.
  now rewrite sanity_eq, close_unclosed_eq, report_and_draw_eq.
Qed.

(** *** Layout *)

Ltac solve_step :=
  first [ apply sanity_eq | apply size_eq | apply rbegin_eq | apply back_eq
        | apply set_back_eq | apply pop_back_eq | apply _update_layout_eq
        | apply _update_layout_nil | apply clog_eq
        | apply set_errors_occurred_eq | apply _pop_container_by_type_eq
        | reflexivity ].

Ltac step := erewrite bind_Some by solve_step; cbv beta.

Ltac exec :=
  repeat first [ step
               | rewrite length_snoc_eqb
               | progress cbn [Nat.eqb List.length driver container_stack
                               errors_occurred label_width trace] ].

Lemma layout_mutator_nonempty m v c e lw b t :
  layout_mutator m = true ->
  let c' := mutated m (fst (sk_interface_get_container_size (sanity_driver b))) c in
  run_plain m (mk_world (v ++ [c]) e lw b t)
  = Some (tt, mk_world (v ++ [c']) e lw
                (sk_interface_set_layout (layout_widths c') (layout_height c')
                   (sanity_driver b))
                (t ++ sanity_events b
                   ++ [Call (SetLayout (layout_widths c') (layout_height c'))])).
Proof.
  intros Hm c'. subst c'.
  destruct m; try discriminate Hm; cbn [run_plain mutated];
    [ unfold reset_layout | unfold single_line_layout
    | unfold start_custom_layout | unfold add_column
    | unfold add_column_relative | unfold set_layout_height ];
    exec;
    try (destruct (sk_interface_get_container_size (sanity_driver b))
           as [wpx hpx]; exec);
    rewrite _update_layout_eq; cbn; now rewrite <- app_assoc.
Qed.

Lemma layout_mutator_empty m e lw b t :
  layout_mutator m = true ->
  run_plain m (mk_world [] e lw b t)
  = Some (tt, mk_world [] e lw (sanity_driver b) (t ++ sanity_events b)).
Proof.
  intros Hm.
  destruct m; try discriminate Hm; cbn [run_plain];
    [ unfold reset_layout | unfold single_line_layout
    | unfold start_custom_layout | unfold add_column
    | unfold add_column_relative | unfold set_layout_height ];
    exec; reflexivity.
Qed.

Lemma _two_column_layout_eq v c e lw b t :
  _two_column_layout (mk_world (v ++ [c]) e lw b t)
  = Some (tt, mk_world (v ++ [with_layout c [lw; -1] (layout_height c)]) e lw
                (sk_interface_set_layout [lw; -1] (layout_height c) b)
                (t ++ [Call (SetLayout [lw; -1] (layout_height c))])).
Proof.
  unfold _two_column_layout. exec. rewrite _update_layout_eq. reflexivity.
Qed.

Lemma set_layout_calls_sanity b : set_layout_calls (sanity_events b) = [].
Proof.
  rewrite <- set_layout_calls_visible. now rewrite sanity_events_invisible.
Qed.

(** C8.  On a stack that is not empty, [reset_layout] leaves the
    innermost record with the widths [-1], and [_two_column_layout],
    with the label width at 60, with the widths [60; -1]; nothing else
    in the stack changes. *)
Theorem layout_reset_and_two_columns (w : world) (v : list container_info)
    (c : container_info) :
  container_stack w = v ++ [c] ->
  (exists w',
      reset_layout w = Some (tt, w')
      /\ container_stack w' = v ++ [with_layout c [-1] (layout_height c)])
  /\ (label_width w = 60 ->
      exists w',
        _two_column_layout w = Some (tt, w')
        /\ container_stack w' = v ++ [with_layout c [60; -1] (layout_height c)]).
Proof.
  intros Hw. destruct w as [v0 e lw b t]. simpl in *. subst v0. split.
  - eexists. split.
    + apply (layout_mutator_nonempty do_reset_layout). reflexivity.
    + reflexivity.
  - intros ->. eexists. split.
    + apply _two_column_layout_eq.
    + reflexivity.
Qed.

(** C9.  Each of the six layout mutators first runs the pre-call guard,
    which changes neither the stack, the error flag nor the label width
    and sends no layout.  On an empty stack the mutator does nothing
    more.  Otherwise it changes the layout of the innermost record as
    [mutated] says and, as its last action, sends the widths and the
    height of that record to the driver. *)
Theorem layout_mutators_push_layout (m : plain_call) (w : world) :
  layout_mutator m = true ->
  exists w1 guard,
    _interface_sanity_check w = Some (tt, w1)
    /\ container_stack w1 = container_stack w
    /\ errors_occurred w1 = errors_occurred w
    /\ label_width w1 = label_width w
    /\ trace w1 = trace w ++ guard
    /\ set_layout_calls guard = []
    /\ (container_stack w = [] -> run_plain m w = Some (tt, w1))
    /\ (forall v c,
           container_stack w = v ++ [c] ->
           exists c',
             c' = mutated m (fst (sk_interface_get_container_size (driver w1))) c
             /\ run_plain m w
                = Some (tt, mk_world (v ++ [c']) (errors_occurred w)
                              (label_width w)
                              (sk_interface_set_layout (layout_widths c')
                                 (layout_height c') (driver w1))
                              (trace w1
                                 ++ [Call (SetLayout (layout_widths c')
                                             (layout_height c'))]))).
Proof.
  intros Hm. destruct w as [v0 e lw b t].
  exists (mk_world v0 e lw (sanity_driver b) (t ++ sanity_events b)).
  exists (sanity_events b). cbn [container_stack errors_occurred label_width
                                 driver trace].
  split; [apply sanity_eq|].
  do 4 (split; [reflexivity|]).
  split; [apply set_layout_calls_sanity|].
  split.
  - intros ->. now apply layout_mutator_empty.
  - intros v c ->. eexists. split; [reflexivity|].
    rewrite (layout_mutator_nonempty m v c e lw b t Hm).
    now rewrite <- app_assoc.
Qed.

(** *** Pushing, popping and the layout *)

Lemma push_back_eq c v e lw b t :
  push_back c (mk_world v e lw b t)
  = Some (tt, mk_world (v ++ [c]) e lw b (t ++ [Pushed c])).
Proof. reflexivity. Qed.

Lemma _push_container_stack_open ty nm v e lw b t :
  _push_container_stack true ty nm (mk_world v e lw b t)
  = Some (tt, mk_world (v ++ [new_container ty nm]) e lw
                (sk_interface_set_layout [-1] 0 b)
                (t ++ [Pushed (new_container ty nm); Call (SetLayout [-1] 0)])).
Proof.
  unfold _push_container_stack.
  rewrite (bind_Some _ _ _ _ _ (push_back_eq _ v e lw b t)).
  rewrite _update_layout_eq. cbn. now rewrite <- app_assoc.
Qed.

(** Either no record matches, or there is an innermost one that does. *)
Lemma stack_cases ty nm (v : list container_info) :
  Forall (no_match ty nm) v
  \/ exists below target above,
       v = below ++ target :: above
       /\ is_container ty nm target = true
       /\ Forall (no_match ty nm) above.
Proof.
  induction v as [|x v IH] using rev_ind.
  - left. constructor.
  - destruct (is_container ty nm x) eqn:Hx.
    + right. exists v, x, []. repeat split; [assumption | constructor].
    + destruct IH as [IH | (below & target & above & -> & Ht & Hab)].
      * left. apply Forall_app. split; [assumption|]. now constructor.
      * right. exists below, target, (above ++ [x]).
        split; [now rewrite <- app_assoc|]. split; [assumption|].
        apply Forall_app. split; [assumption|]. now constructor.
Qed.

(** Whatever the stack and the call, [_pop_container_stack] returns; it
    pops the records [popped] (innermost first) off the stack, each right
    after its backend close, and traces nothing else but diagnostics. *)
Lemma pop_outcome ty nm v e lw b t :
  exists v' e' popped msgs,
    _pop_container_stack ty nm (mk_world v e lw b t)
    = Some (tt, mk_world v' e' lw (close_all popped b)
                  (t ++ map Warning msgs ++ close_events popped))
    /\ v = v' ++ rev popped.
Proof.
  destruct (stack_cases ty nm v)
    as [Hnone | (below & target & above & -> & Ht & Hab)].
  - destruct v as [|x v'] using rev_ind.
    + exists [], true, [], [msg_nothing_started ty nm].
      split; [apply pop_nothing_open | reflexivity].
    + exists (v' ++ [x]), true, [],
        [msg_no_such_container ty nm; msg_expecting x].
      split; [now apply pop_missing | now rewrite app_nil_r].
  - destruct above as [|top above] using rev_ind.
    + exists below, e, [target], []. split.
      * rewrite pop_matching by assumption. reflexivity.
      * reflexivity.
    + exists below, true, (rev (target :: above ++ [top])),
        ([msg_too_early ty nm; msg_call_these_first]
           ++ map msg_call_first (rev (above ++ [top]))).
      split.
      * rewrite pop_premature by assumption.
        unfold call_first_events. rewrite map_app, map_map.
        repeat (rewrite <- app_assoc; cbn [app map]). reflexivity.
      * now rewrite rev_involutive.
Qed.

Lemma project_warnings {B} (f : event -> option B) (msgs : list string) :
  (forall m, f (Warning m) = None) ->
  project f (map Warning msgs) = [].
Proof.
  intros Hf. induction msgs as [|m msgs IH]; [reflexivity|].
  cbn [map]. now rewrite project_cons, Hf.
Qed.

Lemma set_layout_calls_close_events cs : set_layout_calls (close_events cs) = [].
Proof. induction cs as [|c cs IH]; [reflexivity | exact IH]. Qed.

Lemma set_layout_calls_forced_close_events cs :
  set_layout_calls (forced_close_events cs) = [].
Proof. induction cs as [|c cs IH]; [reflexivity | exact IH]. Qed.

(** C7, as the code has it.  A push is followed by sending the layout of
    the record just pushed to the driver.  A pop is not: neither the
    close algorithm nor the closing loop of [draw_interface] calls
    [sk_interface_set_layout]. *)
Theorem layout_sent_after_push_only :
  (forall (w : world) ty nm,
      let c := new_container ty nm in
      _push_container_stack true ty nm w
      = Some (tt, mk_world (container_stack w ++ [c]) (errors_occurred w)
                    (label_width w)
                    (sk_interface_set_layout (layout_widths c) (layout_height c)
                       (driver w))
                    (trace w
                       ++ [Pushed c;
                           Call (SetLayout (layout_widths c) (layout_height c))])))
  /\ (forall (w : world) ty nm,
         exists w' d,
           _pop_container_stack ty nm w = Some (tt, w')
           /\ trace w' = trace w ++ d
           /\ set_layout_calls d = [])
  /\ (forall w : world,
         exists w' d,
           close_unclosed w = Some (tt, w')
           /\ trace w' = trace w ++ d
           /\ set_layout_calls d = []).
Proof.
  split; [|split].
  - intros [v e lw b t] ty nm. apply _push_container_stack_open.
  - intros [v e lw b t] ty nm.
    destruct (pop_outcome ty nm v e lw b t)
      as (v' & e' & popped & msgs & Hrun & _).
    eexists. eexists. split; [exact Hrun|]. split; [reflexivity|].
    unfold set_layout_calls. rewrite project_app.
    rewrite project_warnings by reflexivity.
    apply set_layout_calls_close_events.
  - intros [v e lw b t]. eexists. eexists.
    split; [apply close_unclosed_eq|]. split; [reflexivity|].
    apply set_layout_calls_forced_close_events.
Qed.

(** *** Composing runs *)

Lemma does_bind {A B} (m : M A) (k : A -> M B) (w : world)
    (Q1 : A -> list event -> world -> Prop)
    (Q : B -> list event -> world -> Prop) :
  does m w Q1 ->
  (forall a d1 w1,
      Q1 a d1 w1 -> does (k a) w1 (fun b d2 w2 => Q b (d1 ++ d2) w2)) ->
  does (bind m k) w Q.
Proof.
  intros (a & w1 & d1 & Hm & Ht1 & HQ1) Hk.
  destruct (Hk a d1 w1 HQ1) as (b & w2 & d2 & Hk' & Ht2 & HQ).
  exists b, w2, (d1 ++ d2). split; [|split].
  - now rewrite (bind_Some _ _ _ _ _ Hm).
  - now rewrite Ht2, Ht1, app_assoc.
  - exact HQ.
Qed.

Lemma does_weaken {A} (m : M A) (w : world)
    (Q Q' : A -> list event -> world -> Prop) :
  does m w Q -> (forall a d w', Q a d w' -> Q' a d w') -> does m w Q'.
Proof.
  intros (a & w' & d & Hm & Ht & HQ) H. exists a, w', d. auto.
Qed.

Lemma lifo_app (l1 l2 : list bracket) (open open1 : list panel_type) :
  lifo l1 open = Some open1 -> lifo (l1 ++ l2) open = lifo l2 open1.
Proof.
  revert open. induction l1 as [|[ty|ty] l1 IH]; intros open H; simpl in *.
  - now injection H as ->.
  - now apply IH.
  - destruct open as [|top open']; [discriminate|].
    destruct (panel_type_eqb ty top); [now apply IH | discriminate].
Qed.

Lemma close_then_pop_app (l1 l2 : list close_or_pop) :
  close_then_pop l1 = true ->
  close_then_pop (l1 ++ l2) = close_then_pop l2.
Proof.
  remember (List.length l1) as n eqn:Hn. revert l1 Hn.
  induction n as [n IH] using lt_wf_ind.
  intros [|[ty|c] [|[ty'|c'] l1]] Hn H; simpl in *; try discriminate.
  - reflexivity.
  - apply andb_true_iff in H. destruct H as [H1 H2]. rewrite H1. simpl.
    apply (IH (List.length l1)); [lia | reflexivity | assumption].
Qed.

Lemma steady_refl (w : world) : steady w [] w.
Proof. repeat split. Qed.

Lemma steady_trans w d1 w1 d2 w2 :
  steady w d1 w1 -> steady w1 d2 w2 -> steady w (d1 ++ d2) w2.
Proof.
  intros (K1 & E1 & L1 & C1) (K2 & E2 & L2 & C2). repeat split.
  - congruence.
  - congruence.
  - intros open. unfold brackets. rewrite project_app.
    rewrite (lifo_app _ _ open open (L1 open)). apply L2.
  - unfold closes_and_pops. rewrite project_app.
    now rewrite close_then_pop_app.
Qed.

Lemma opening_steady ty nm w d1 w1 d2 w2 :
  opening ty nm w d1 w1 -> steady w1 d2 w2 -> opening ty nm w (d1 ++ d2) w2.
Proof.
  intros (K1 & E1 & L1 & C1) (K2 & E2 & L2 & C2). repeat split.
  - congruence.
  - congruence.
  - intros open. unfold brackets. rewrite project_app.
    rewrite (lifo_app _ _ open (ty :: open) (L1 open)). apply L2.
  - unfold closes_and_pops. rewrite project_app.
    now rewrite close_then_pop_app.
Qed.

Lemma brackets_app (d1 d2 : list event) :
  brackets (d1 ++ d2) = brackets d1 ++ brackets d2.
Proof. apply project_app. Qed.

Lemma closes_and_pops_app (d1 d2 : list event) :
  closes_and_pops (d1 ++ d2) = closes_and_pops d1 ++ closes_and_pops d2.
Proof. apply project_app. Qed.

Lemma brackets_cons (e : event) (d : list event) :
  brackets (e :: d) = brackets [e] ++ brackets d.
Proof. apply (brackets_app [e] d). Qed.

Lemma closes_and_pops_cons (e : event) (d : list event) :
  closes_and_pops (e :: d) = closes_and_pops [e] ++ closes_and_pops d.
Proof. apply (closes_and_pops_app [e] d). Qed.

Lemma brackets_sanity b : brackets (sanity_events b) = [].
Proof. rewrite <- brackets_visible. now rewrite sanity_events_invisible. Qed.

Lemma closes_and_pops_sanity b : closes_and_pops (sanity_events b) = [].
Proof.
  rewrite <- closes_and_pops_visible. now rewrite sanity_events_invisible.
Qed.

Lemma silent_ret {A} (a : A) : silent (ret a).
Proof.
  intros v e lw b t. exists a, v, b, []. rewrite app_nil_r. repeat split.
Qed.

Lemma silent_bind {A B} (m : M A) (k : A -> M B) :
  silent m -> (forall a, silent (k a)) -> silent (bind m k).
Proof.
  intros Hm Hk v e lw b t.
  destruct (Hm v e lw b t) as (a & v1 & b1 & d1 & Hrun1 & K1 & B1 & C1).
  destruct (Hk a v1 e lw b1 (t ++ d1))
    as (r & v2 & b2 & d2 & Hrun2 & K2 & B2 & C2).
  exists r, v2, b2, (d1 ++ d2).
  rewrite (bind_Some _ _ _ _ _ Hrun1), Hrun2, app_assoc.
  split; [reflexivity|]. split; [congruence|].
  rewrite brackets_app, closes_and_pops_app, B1, B2, C1, C2. now split.
Qed.

Lemma silent_gets {A} (f : world -> A) : silent (gets f).
Proof.
  intros v e lw b t. eexists _, v, b, []. rewrite app_nil_r. repeat split.
Qed.

Lemma silent_emit (e : event) : quiet e -> silent (emit e).
Proof.
  intros [Hb Hc] v f lw b t. exists tt, v, b, [e]. repeat split; assumption.
Qed.

Lemma silent_set_driver (b : backend) : silent (set_driver b).
Proof.
  intros v f lw b0 t. exists tt, v, b, []. rewrite app_nil_r. repeat split.
Qed.

Lemma silent_command (c : driver_call) (f : backend -> backend) :
  quiet (Call c) -> silent (command c f).
Proof.
  intros Hc. unfold command.
  apply silent_bind; [apply silent_gets|]. intros b.
  apply silent_bind; [apply silent_set_driver|]. intros _.
  now apply silent_emit.
Qed.

Lemma silent_request {A} (c : A -> driver_call) (f : backend -> A * backend) :
  (forall a, quiet (Call (c a))) -> silent (request c f).
Proof.
  intros Hc. unfold request.
  apply silent_bind; [apply silent_gets|]. intros b. cbv zeta.
  apply silent_bind; [apply silent_set_driver|]. intros _.
  apply silent_bind; [now apply silent_emit|]. intros _.
  apply silent_ret.
Qed.

Lemma silent_ignore {A} (m : M A) : silent m -> silent (ignore m).
Proof.
  intros Hm. unfold ignore. apply silent_bind; [assumption|].
  intros _. apply silent_ret.
Qed.

Lemma silent__interface_sanity_check : silent _interface_sanity_check.
Proof.
  intros v e lw b t.
  exists tt, v, (sanity_driver b), (sanity_events b).
  split; [apply sanity_eq|]. split; [reflexivity|].
  split; [apply brackets_sanity | apply closes_and_pops_sanity].
Qed.

Lemma silent__update_layout : silent _update_layout.
Proof.
  intros v e lw b t.
  destruct v as [|c v] using rev_ind.
  - exists tt, [], b, []. rewrite app_nil_r. repeat split.
  - eexists tt, _, _, _. split; [apply _update_layout_eq|]. repeat split.
Qed.

Lemma keys_snoc v c : keys (v ++ [c]) = keys v ++ [(type c, name c)].
Proof. unfold keys. now rewrite map_app. Qed.

Lemma keys_mutated m x v c : keys (v ++ [mutated m x c]) = keys (v ++ [c]).
Proof. rewrite !keys_snoc. now destruct m. Qed.

Lemma silent_layout_mutator m : layout_mutator m = true -> silent (run_plain m).
Proof.
  intros Hm v e lw b t.
  destruct v as [|c v] using rev_ind.
  - eexists tt, _, _, _.
    split; [now apply layout_mutator_empty|]. split; [reflexivity|].
    split; [apply brackets_sanity | apply closes_and_pops_sanity].
  - eexists tt, _, _, _.
    split; [now apply layout_mutator_nonempty|].
    split; [apply keys_mutated|].
    rewrite brackets_app, closes_and_pops_app.
    rewrite brackets_sanity, closes_and_pops_sanity. now split.
Qed.

Lemma keeps_of_eq {A} (m : M A) :
  (forall v e lw b t,
      exists a v' b' d,
        m (mk_world v e lw b t) = Some (a, mk_world v' e lw b' (t ++ d))
        /\ keys v' = keys v
        /\ (forall open, lifo (brackets d) open = Some open)
        /\ close_then_pop (closes_and_pops d) = true) ->
  keeps m.
Proof.
  intros H [v e lw b t].
  destruct (H v e lw b t) as (a & v' & b' & d & Hm & Hk & Hl & Hc).
  exists a, (mk_world v' e lw b' (t ++ d)), d.
  split; [assumption|]. split; [reflexivity|]. repeat split; assumption.
Qed.

Lemma keeps_of_silent {A} (m : M A) : silent m -> keeps m.
Proof.
  intros H. apply keeps_of_eq. intros v e lw b t.
  destruct (H v e lw b t) as (a & v' & b' & d & Hm & Hk & Hb & Hc).
  exists a, v', b', d. rewrite Hb, Hc. repeat split; assumption.
Qed.

(** *** The controls that take a label *)

Lemma command_eq c f v e lw b t :
  command c f (mk_world v e lw b t)
  = Some (tt, mk_world v e lw (f b) (t ++ [Call c])).
Proof. reflexivity. Qed.

Lemma enter_column_eq v e lw b t :
  enter_column (mk_world v e lw b t)
  = Some (tt, mk_world (v ++ [new_container column EmptyString]) e lw
                (sk_interface_set_layout [-1] 0
                   (sk_interface_start_column (sanity_driver b)))
                (t ++ sanity_events b
                   ++ [Call StartColumn;
                       Pushed (new_container column EmptyString);
                       Call (SetLayout [-1] 0)])).
Proof.
  unfold enter_column. exec. rewrite _push_container_stack_open.
  now repeat (rewrite <- app_assoc; cbn [app]).
Qed.

Lemma leave_column_eq v c e lw b t :
  type c = column -> name c = EmptyString ->
  leave_column (mk_world (v ++ [c]) e lw b t)
  = Some (tt, mk_world v e lw (sk_interface_end_column (sanity_driver b))
                (t ++ sanity_events b ++ [Call (End column); Popped c])).
Proof.
  intros Hty Hnm. unfold leave_column. exec.
  rewrite pop_matching by (apply is_container_iff; now split).
  rewrite Hty. now repeat (rewrite <- app_assoc; cbn [app]).
Qed.

Ltac plain_control_tac :=
  intros v e lw b t; eexists _, _, _; split;
  [ exec; cbv [request]; exec; cbv [ret];
    repeat (rewrite <- app_assoc; cbn [app]); reflexivity
  | reflexivity ].

Lemma plain_control_button txt : plain_control (button txt).
Proof. unfold plain_control, button. plain_control_tac. Qed.

Lemma plain_control_checkbox txt value : plain_control (checkbox txt value).
Proof. unfold plain_control, checkbox. plain_control_tac. Qed.

Lemma plain_control_slider value lo hi : plain_control (slider value lo hi).
Proof. unfold plain_control, slider. plain_control_tac. Qed.

Lemma plain_control_number_box value stp : plain_control (number_box value stp).
Proof. unfold plain_control, number_box. plain_control_tac. Qed.

Lemma plain_control_text_box value : plain_control (text_box value).
Proof. unfold plain_control, text_box. plain_control_tac. Qed.

Lemma labeled_eq {A} (lbl : string) (ctl : M A) v e lw b t :
  plain_control ctl ->
  exists r b' d c,
    labeled lbl ctl (mk_world v e lw b t)
    = Some (r, mk_world v e lw b' (t ++ d))
    /\ control_call c = true
    /\ filter visible d = labeled_events lw lbl c.
Proof.
  intros Hctl. unfold labeled.
  rewrite (bind_Some _ _ _ _ _ (sanity_eq v e lw b t)).
  rewrite (bind_Some _ _ _ _ _ (enter_column_eq v e lw _ _)).
  rewrite (bind_Some _ _ _ _ _ (_two_column_layout_eq v _ e lw _ _)).
  rewrite (bind_Some _ _ _ _ _ (command_eq _ _ _ e lw _ _)).
  match goal with
  | |- context [bind ctl _ (mk_world ?v1 ?e1 ?lw1 ?b1 ?t1)] =>
      destruct (Hctl v1 e1 lw1 b1 t1) as (r & b' & c & Hrun & Hc);
      rewrite (bind_Some _ _ _ _ _ Hrun)
  end.
  erewrite bind_Some by (apply leave_column_eq; reflexivity).
  eexists r, _, _, c. split; [|split; [exact Hc|]].
  - cbv [ret]. repeat (rewrite <- app_assoc; cbn [app]). reflexivity.
  - repeat first [ rewrite filter_app
                 | rewrite sanity_events_invisible
                 | progress cbn [filter visible app] ].
    destruct c; try discriminate Hc; reflexivity.
Qed.

Lemma labeled_control_cases (m : plain_call) :
  labeled_control m = true ->
  exists lbl, 
    (exists txt, run_plain m = ignore (labeled lbl (button txt)))
    \/ (exists txt value, run_plain m = ignore (labeled lbl (checkbox txt value)))
    \/ (exists value lo hi, run_plain m = ignore (labeled lbl (slider value lo hi)))
    \/ (exists value stp, run_plain m = ignore (labeled lbl (number_box value stp)))
    \/ (exists value, run_plain m = ignore (labeled lbl (text_box value))).
Proof.
  destruct m; try discriminate; intros _; exists lbl.
  - left. now exists txt.
  - right; left. now exists txt, value.
  - right; right; left. now exists value, min_value, max_value.
  - right; right; right; left. now exists value, step.
  - right; right; right; right. now exists value.
Qed.

Lemma labeled_control_run (m : plain_call) v e lw b t :
  labeled_control m = true ->
  exists b' d lbl c,
    run_plain m (mk_world v e lw b t) = Some (tt, mk_world v e lw b' (t ++ d))
    /\ control_call c = true
    /\ filter visible d = labeled_events lw lbl c.
Proof.
  intros Hm.
  assert (Hgen : forall A (ctl : M A) lbl,
             plain_control ctl ->
             exists b' d c,
               ignore (labeled lbl ctl) (mk_world v e lw b t)
               = Some (tt, mk_world v e lw b' (t ++ d))
               /\ control_call c = true
               /\ filter visible d = labeled_events lw lbl c).
  { intros A ctl lbl Hctl.
    destruct (labeled_eq lbl ctl v e lw b t Hctl)
      as (r & b' & d & c & Hrun & Hc & Hd).
    exists b', d, c. split; [|split; assumption].
    unfold ignore. now rewrite (bind_Some _ _ _ _ _ Hrun). }
  destruct (labeled_control_cases m Hm)
    as (lbl & [(txt & ->) | [(txt & value & ->) | [(value & lo & hi & ->)
       | [(value & stp & ->) | (value & ->)]]]]).
  - destruct (Hgen _ _ lbl (plain_control_button txt)) as (b' & d & c & H).
    now exists b', d, lbl, c.
  - destruct (Hgen _ _ lbl (plain_control_checkbox txt value))
      as (b' & d & c & H).
    now exists b', d, lbl, c.
  - destruct (Hgen _ _ lbl (plain_control_slider value lo hi))
      as (b' & d & c & H).
    now exists b', d, lbl, c.
  - destruct (Hgen _ _ lbl (plain_control_number_box value stp))
      as (b' & d & c & H).
    now exists b', d, lbl, c.
  - destruct (Hgen _ _ lbl (plain_control_text_box value)) as (b' & d & c & H).
    now exists b', d, lbl, c.
Qed.

(** C10.  Each of the five controls that take a label returns with the
    container stack, the error flag and the label width it was called
    with.  Guard restarts and diagnostics aside, its trace is: the
    backend column opens, one anonymous column record is pushed with the
    default layout, the two-column layout is sent for it, the label and
    the control are issued, the backend column closes and that same
    record is popped. *)
Theorem labeled_control_restores_stack (m : plain_call) (w : world) :
  labeled_control m = true ->
  exists w' d lbl c,
    run_plain m w = Some (tt, w')
    /\ container_stack w' = container_stack w
    /\ errors_occurred w' = errors_occurred w
    /\ label_width w' = label_width w
    /\ trace w' = trace w ++ d
    /\ control_call c = true
    /\ filter visible d = labeled_events (label_width w) lbl c.
Proof.
  intros Hm. destruct w as [v e lw b t].
  destruct (labeled_control_run m v e lw b t Hm)
    as (b' & d & lbl & c & Hrun & Hc & Hd).
  exists (mk_world v e lw b' (t ++ d)), d, lbl, c.
  repeat split; assumption.
Qed.

(** *** Calls that neither open nor close a container *)

Ltac silence :=
  repeat first
    [ apply silent_ret
    | apply silent__interface_sanity_check
    | apply silent__update_layout
    | apply silent_gets
    | apply silent_ignore
    | apply silent_command; split; reflexivity
    | apply silent_request; intros; split; reflexivity
    | apply silent_bind; [|intros ?] ].

Lemma brackets_labeled_events lw lbl c :
  control_call c = true ->
  brackets (labeled_events lw lbl c) = [Opens column; Closes column].
Proof. destruct c; try discriminate; reflexivity. Qed.

Lemma closes_and_pops_labeled_events lw lbl c :
  control_call c = true ->
  closes_and_pops (labeled_events lw lbl c)
  = [BackendClose column;
     StackPop (with_layout (new_container column EmptyString) [lw; -1] 0)].
Proof. destruct c; try discriminate; reflexivity. Qed.

Lemma keeps_labeled_control (m : plain_call) :
  labeled_control m = true -> keeps (run_plain m).
Proof.
  intros Hm. apply keeps_of_eq. intros v e lw b t.
  destruct (labeled_control_run m v e lw b t Hm)
    as (b' & d & lbl & c & Hrun & Hc & Hd).
  exists tt, v, b', d. split; [assumption|]. split; [reflexivity|].
  rewrite <- brackets_visible, <- closes_and_pops_visible, Hd.
  rewrite brackets_labeled_events, closes_and_pops_labeled_events
    by assumption.
  split; [|reflexivity]. intros open. reflexivity.
Qed.

Lemma keeps_run_plain (m : plain_call) : keeps (run_plain m).
Proof.
  destruct (labeled_control m) eqn:Hlab;
    [now apply keeps_labeled_control|].
  destruct (layout_mutator m) eqn:Hmut;
    [now apply keeps_of_silent, silent_layout_mutator|].
  destruct m; try discriminate Hlab; try discriminate Hmut;
    cbn [run_plain].
  - apply keeps_of_silent. unfold set_interface_font. silence.
  - apply keeps_of_silent.
    unfold set_interface_font_named, set_interface_font. silence.
  - apply keeps_of_silent. unfold set_interface_font_size. silence.
  - intros [v e lw b t]. eexists tt, _, []. split; [reflexivity|].
    split; [cbn; now rewrite app_nil_r|]. repeat split.
  - apply keeps_of_silent. unfold open_popup. silence.
  - apply keeps_of_silent. unfold header. silence.
  - apply keeps_of_silent. unfold label. silence.
  - apply keeps_of_silent. unfold paragraph. silence.
  - apply keeps_of_silent. unfold button. silence.
  - apply keeps_of_silent. unfold checkbox. silence.
  - apply keeps_of_silent. unfold slider. silence.
  - apply keeps_of_silent. unfold number_box. silence.
  - apply keeps_of_silent. unfold text_box. silence.
  - apply keeps_of_silent. unfold last_element_changed. silence.
  - apply keeps_of_silent. unfold last_element_confirmed. silence.
Qed.

(** *** Opening and closing *)

Lemma request_eq {A} (c : A -> driver_call) (f : backend -> A * backend)
    v e lw b t :
  request c f (mk_world v e lw b t)
  = Some (fst (f b),
          mk_world v e lw (snd (f b)) (t ++ [Call (c (fst (f b)))])).
Proof. reflexivity. Qed.

Lemma _push_container_stack_closed ty nm :
  _push_container_stack false ty nm = _update_layout.
Proof. reflexivity. Qed.

Lemma opening_intro ty nm v v' c e lw b b' t t' d :
  type c = ty -> name c = nm -> keys v' = keys v ->
  brackets d = [Opens ty] -> closes_and_pops d = [] ->
  opening ty nm (mk_world v e lw b t) d (mk_world (v' ++ [c]) e lw b' t').
Proof.
  intros <- <- Hk Hb Hc. repeat split; cbn.
  - now rewrite keys_snoc, Hk.
  - intros open. now rewrite Hb.
  - now rewrite Hc.
Qed.

Lemma steady_intro v v' e lw b b' t t' d :
  keys v' = keys v -> brackets d = [] -> closes_and_pops d = [] ->
  steady (mk_world v e lw b t) d (mk_world v' e lw b' t').
Proof.
  intros Hk Hb Hc. repeat split; cbn.
  - assumption.
  - intros open. now rewrite Hb.
  - now rewrite Hc.
Qed.

(** Reads a trace made of guard events and explicit events. *)
Ltac see :=
  match goal with
  | |- brackets ?d = _ => rewrite <- (brackets_visible d)
  | |- closes_and_pops ?d = _ => rewrite <- (closes_and_pops_visible d)
  end;
  repeat first [ rewrite filter_app
               | rewrite sanity_events_invisible
               | progress cbn [filter visible app] ];
  reflexivity.

Lemma start_panel_opened nm r w : opened_or_not (in_panel nm r) w.
Proof.
  destruct w as [v e lw b t]. unfold opened_or_not, does.
  cbn [start_container kind_of name_of]. unfold start_panel.
  rewrite (bind_Some _ _ _ _ _ (sanity_eq v e lw b t)).
  rewrite (bind_Some _ _ _ _ _ (request_eq _ _ v e lw _ _)).
  destruct (fst (sk_interface_start_panel nm r (sanity_driver b))) eqn:Hopen.
  - rewrite (bind_Some _ _ _ _ _ (_push_container_stack_open _ _ v e lw _ _)).
    eexists true, _, _. split; [reflexivity|]. cbn [trace].
    split; [now repeat (rewrite <- app_assoc; cbn [app])|].
    apply opening_intro; try reflexivity.
    + now rewrite brackets_app, brackets_sanity.
    + now rewrite closes_and_pops_app, closes_and_pops_sanity.
  - rewrite _push_container_stack_closed.
    match goal with
    | |- context [bind _update_layout _ (mk_world ?v1 ?e1 ?lw1 ?b1 ?t1)] =>
        destruct (silent__update_layout v1 e1 lw1 b1 t1)
          as ([] & v2 & b2 & d2 & Hrun & Hk & Hb & Hc)
    end.
    rewrite (bind_Some _ _ _ _ _ Hrun).
    eexists false, _, _. split; [reflexivity|]. cbn [trace].
    split; [now repeat (rewrite <- app_assoc; cbn [app])|].
    apply steady_intro; [assumption| |].
    + rewrite brackets_app, brackets_cons, brackets_sanity, Hb. reflexivity.
    + rewrite closes_and_pops_app, closes_and_pops_cons,
        closes_and_pops_sanity, Hc.
      reflexivity.
Qed.

Lemma start_treenode_opened nm w : opened_or_not (in_treenode nm) w.
Proof.
  destruct w as [v e lw b t]. unfold opened_or_not, does.
  cbn [start_container kind_of name_of]. unfold start_treenode.
  rewrite (bind_Some _ _ _ _ _ (sanity_eq v e lw b t)).
  rewrite (bind_Some _ _ _ _ _ (request_eq _ _ v e lw _ _)).
  destruct (fst (sk_interface_start_treenode nm (sanity_driver b))) eqn:Hopen.
  - rewrite (bind_Some _ _ _ _ _ (_push_container_stack_open _ _ v e lw _ _)).
    eexists true, _, _. split; [reflexivity|]. cbn [trace].
    split; [now repeat (rewrite <- app_assoc; cbn [app])|].
    apply opening_intro; try reflexivity.
    + now rewrite brackets_app, brackets_sanity.
    + now rewrite closes_and_pops_app, closes_and_pops_sanity.
  - rewrite _push_container_stack_closed.
    match goal with
    | |- context [bind _update_layout _ (mk_world ?v1 ?e1 ?lw1 ?b1 ?t1)] =>
        destruct (silent__update_layout v1 e1 lw1 b1 t1)
          as ([] & v2 & b2 & d2 & Hrun & Hk & Hb & Hc)
    end.
    rewrite (bind_Some _ _ _ _ _ Hrun).
    eexists false, _, _. split; [reflexivity|]. cbn [trace].
    split; [now repeat (rewrite <- app_assoc; cbn [app])|].
    apply steady_intro; [assumption| |].
    + rewrite brackets_app, brackets_cons, brackets_sanity, Hb. reflexivity.
    + rewrite closes_and_pops_app, closes_and_pops_cons,
        closes_and_pops_sanity, Hc.
      reflexivity.
Qed.

Lemma start_popup_opened nm w : opened_or_not (in_popup nm) w.
Proof.
  destruct w as [v e lw b t]. unfold opened_or_not, does.
  cbn [start_container kind_of name_of]. unfold start_popup.
  rewrite (bind_Some _ _ _ _ _ (sanity_eq v e lw b t)).
  rewrite (bind_Some _ _ _ _ _ (request_eq _ _ v e lw _ _)).
  destruct (fst (sk_interface_start_popup nm (sanity_driver b))) eqn:Hopen.
  - rewrite (bind_Some _ _ _ _ _ (_push_container_stack_open _ _ v e lw _ _)).
    rewrite (bind_Some _ _ _ _ _
               (layout_mutator_nonempty do_single_line_layout v _ e lw _ _
                  eq_refl)).
    eexists true, _, _. split; [reflexivity|]. cbn [trace].
    split; [now repeat (rewrite <- app_assoc; cbn [app])|].
    apply opening_intro; try reflexivity.
    + see.
    + see.
  - rewrite _push_container_stack_closed.
    match goal with
    | |- context [bind _update_layout _ (mk_world ?v1 ?e1 ?lw1 ?b1 ?t1)] =>
        destruct (silent__update_layout v1 e1 lw1 b1 t1)
          as ([] & v2 & b2 & d2 & Hrun & Hk & Hb & Hc)
    end.
    rewrite (bind_Some _ _ _ _ _ Hrun).
    eexists false, _, _. split; [reflexivity|]. cbn [trace].
    split; [now repeat (rewrite <- app_assoc; cbn [app])|].
    apply steady_intro; [assumption| |].
    + rewrite brackets_app, brackets_cons, brackets_sanity, Hb. reflexivity.
    + rewrite closes_and_pops_app, closes_and_pops_cons,
        closes_and_pops_sanity, Hc.
      reflexivity.
Qed.

Lemma start_inset_run nm height v e lw b t :
  exists v1 b1 d,
    start_inset nm height (mk_world v e lw b t)
    = Some (tt, mk_world (v1 ++ [new_container inset nm]) e lw b1 (t ++ d))
    /\ keys v1 = keys v
    /\ brackets d = [Opens inset]
    /\ closes_and_pops d = [].
Proof.
  unfold start_inset.
  rewrite (bind_Some _ _ _ _ _ (sanity_eq v e lw b t)).
  destruct (silent_layout_mutator (do_set_layout_height height) eq_refl
              v e lw (sanity_driver b) (t ++ sanity_events b))
    as ([] & v1 & b1 & d1 & Hrun & Hk & Hb & Hc).
  cbn [run_plain] in Hrun.
  rewrite (bind_Some _ _ _ _ _ Hrun).
  rewrite (bind_Some _ _ _ _ _ (command_eq _ _ v1 e lw _ _)).
  rewrite _push_container_stack_open.
  eexists v1, _, _. split; [|split; [assumption|]].
  - repeat (rewrite <- app_assoc; cbn [app]). reflexivity.
  - rewrite !brackets_app, !closes_and_pops_app.
    rewrite brackets_sanity, closes_and_pops_sanity, Hb, Hc. now split.
Qed.

Lemma start_inset_opened nm height w : opened_or_not (in_inset nm height) w.
Proof.
  destruct w as [v e lw b t]. unfold opened_or_not, does.
  cbn [start_container kind_of name_of].
  destruct (start_inset_run nm height v e lw b t)
    as (v1 & b1 & d & Hrun & Hk & Hb & Hc).
  rewrite (bind_Some _ _ _ _ _ Hrun).
  eexists true, _, d. split; [reflexivity|]. cbn [trace].
  split; [reflexivity|].
  now apply opening_intro.
Qed.

Lemma enter_column_opened w : opened_or_not in_column w.
Proof.
  destruct w as [v e lw b t]. unfold opened_or_not, does.
  cbn [start_container kind_of name_of].
  rewrite (bind_Some _ _ _ _ _ (enter_column_eq v e lw b t)).
  eexists true, _, _. split; [reflexivity|]. cbn [trace].
  split; [reflexivity|].
  apply opening_intro; try reflexivity.
  - now rewrite brackets_app, brackets_sanity.
  - now rewrite closes_and_pops_app, closes_and_pops_sanity.
Qed.

Lemma start_container_opened o w : opened_or_not o w.
Proof.
  destruct o.
  - apply start_panel_opened.
  - apply start_popup_opened.
  - apply start_inset_opened.
  - apply start_treenode_opened.
  - apply enter_column_opened.
Qed.

Lemma end_container_eq (c : closer) v e lw b t :
  end_container c (mk_world v e lw b t)
  = match c with
    | out_panel nm => _pop_container_stack panel nm
    | out_popup nm => _pop_container_stack popup nm
    | out_inset nm => _pop_container_stack inset nm
    | out_treenode nm => _pop_container_stack treenode nm
    | out_column => _pop_container_stack column EmptyString
    end (mk_world v e lw (sanity_driver b) (t ++ sanity_events b)).
Proof.
  destruct c; cbn [end_container];
    [ unfold end_panel | unfold end_popup | unfold end_inset
    | unfold end_treenode | unfold leave_column ];
    now rewrite (bind_Some _ _ _ _ _ (sanity_eq v e lw b t)).
Qed.

Lemma end_container_matching o v c e lw b t :
  type c = kind_of o -> name c = name_of o ->
  end_container (closer_of o) (mk_world (v ++ [c]) e lw b t)
  = Some (tt, mk_world v e lw (end_driver (kind_of o) (sanity_driver b))
                (t ++ sanity_events b
                   ++ [Call (End (kind_of o)); Popped c])).
Proof.
  intros Hty Hnm. rewrite end_container_eq.
  destruct o; cbn [closer_of kind_of name_of] in *;
    (rewrite pop_matching by (apply is_container_iff; now split));
    rewrite Hty; now rewrite <- app_assoc.
Qed.

Lemma keys_snoc_inv v ty nm (v' : list container_info) :
  keys v' = keys v ++ [(ty, nm)] ->
  exists v0 c, v' = v0 ++ [c] /\ keys v0 = keys v /\ type c = ty /\ name c = nm.
Proof.
  intros H. destruct v' as [|c v0] using rev_ind.
  - destruct (keys v); discriminate H.
  - rewrite keys_snoc in H. apply app_inj_tail in H. destruct H as [H1 H2].
    injection H2 as Hty Hnm. now exists v0, c.
Qed.

Lemma end_container_closing o w v c :
  container_stack w = v ++ [c] ->
  type c = kind_of o -> name c = name_of o ->
  does (end_container (closer_of o)) w
    (fun _ d w' => closing (kind_of o) (name_of o) w d w').
Proof.
  intros Hw Hty Hnm. destruct w as [v0 e lw b t]. cbn in Hw. subst v0.
  eexists tt, _, _.
  split; [now apply end_container_matching|]. split; [reflexivity|].
  repeat split; cbn [container_stack errors_occurred].
  - now rewrite keys_snoc, Hty, Hnm.
  - intros open. rewrite brackets_app, brackets_sanity. cbn.
    now rewrite panel_type_eqb_refl.
  - rewrite closes_and_pops_app, closes_and_pops_sanity. cbn.
    now rewrite Hty, panel_type_eqb_refl.
Qed.

Lemma opening_closing ty nm w d1 w1 d2 w2 :
  opening ty nm w d1 w1 -> closing ty nm w1 d2 w2 -> steady w (d1 ++ d2) w2.
Proof.
  intros (K1 & E1 & L1 & C1) (K2 & E2 & L2 & C2). repeat split.
  - rewrite K1 in K2. apply app_inj_tail in K2. now destruct K2.
  - congruence.
  - intros open. rewrite brackets_app.
    rewrite (lifo_app _ _ open (ty :: open) (L1 open)). apply L2.
  - rewrite closes_and_pops_app. now rewrite close_then_pop_app.
Qed.

Lemma keeps_bind {A B} (m : M A) (k : A -> M B) :
  keeps m -> (forall a, keeps (k a)) -> keeps (bind m k).
Proof.
  intros Hm Hk w. eapply does_bind; [apply Hm|].
  intros a d1 w1 H1. cbv beta in H1.
  eapply does_weaken; [apply Hk|].
  intros b d2 w2 H2. cbv beta in *. eapply steady_trans; eassumption.
Qed.

(** A container opened and closed around a steady body is steady. *)
Lemma keeps_nest (o : opener) (body rest : M unit) :
  keeps body -> keeps rest ->
  keeps (open <- start_container o ;;
         (if open then body ;;; end_container (closer_of o) else ret tt) ;;;
         rest).
Proof.
  intros Hbody Hrest w.
  eapply does_bind; [apply start_container_opened|].
  intros [|] d1 w1 H1; cbv beta iota in H1.
  - apply (does_bind _ _ _ (fun _ d w' => steady w (d1 ++ d) w')).
    + eapply does_bind; [apply Hbody|].
      intros [] d2 w2 H2. cbv beta in H2.
      pose proof (opening_steady _ _ _ _ _ _ _ H1 H2) as H12.
      destruct (keys_snoc_inv _ _ _ _ (proj1 H12))
        as (v0 & c & Hw2 & Hk0 & Hty & Hnm).
      eapply does_weaken; [now apply (end_container_closing o w2 v0 c)|].
      intros [] d3 w3 H3. cbv beta in H3. rewrite app_assoc.
      eapply opening_closing; eassumption.
    + intros [] d23 w3 H23.
      eapply does_weaken; [apply Hrest|].
      intros [] d4 w4 H4. cbv beta in H4. rewrite app_assoc.
      eapply steady_trans; eassumption.
  - apply (does_bind _ _ _ (fun _ d w' => steady w (d1 ++ d) w')).
    + exists tt, w1, []. split; [reflexivity|].
      split; now rewrite app_nil_r.
    + intros [] d2 w2 H2.
      eapply does_weaken; [apply Hrest|].
      intros [] d3 w3 H3. cbv beta in H3. rewrite app_assoc.
      eapply steady_trans; eassumption.
Qed.

Lemma keeps_run_nesting (p : nesting) : keeps (run_nesting p).
Proof.
  induction p as [|c rest IH|o body IHbody rest IHrest]; cbn [run_nesting].
  - intros w. exists tt, w, []. split; [reflexivity|].
    split; [now rewrite app_nil_r | apply steady_refl].
  - apply keeps_bind; [apply keeps_run_plain | intros _; exact IH].
  - now apply keeps_nest.
Qed.

(** C4.  A caller whose open and close calls are well nested, starting
    with nothing open and the error flag unset, ends with nothing open
    and the flag unset; in the trace of its run the backend containers
    opened are each closed once, in LIFO order, none is left open, and
    closes and pops go in pairs. *)
Theorem well_nested_round_trip (p : nesting) (w : world) :
  container_stack w = [] ->
  errors_occurred w = false ->
  exists w' d,
    run_nesting p w = Some (tt, w')
    /\ trace w' = trace w ++ d
    /\ container_stack w' = []
    /\ errors_occurred w' = false
    /\ lifo (brackets d) [] = Some []
    /\ close_then_pop (closes_and_pops d) = true.
Proof.
  intros Hstack Hflag.
  destruct (keeps_run_nesting p w) as ([] & w' & d & Hrun & Ht & K & E & L & C).
  exists w', d. repeat split; try assumption.
  - rewrite Hstack in K. destruct (container_stack w'); [reflexivity|].
    discriminate K.
  - congruence.
  - apply L.
Qed.

(** *** Closes and pops, across all calls *)

Lemma close_then_pop_pairs cs : close_then_pop (close_pop_pairs cs) = true.
Proof.
  induction cs as [|c cs IH]; [reflexivity|].
  cbn. now rewrite panel_type_eqb_refl.
Qed.

Lemma closes_and_pops_close_events cs :
  closes_and_pops (close_events cs) = close_pop_pairs cs.
Proof.
  induction cs as [|c cs IH]; [reflexivity|].
  change (close_events (c :: cs))
    with ([Call (End (type c)); Popped c] ++ close_events cs).
  rewrite closes_and_pops_app, IH. reflexivity.
Qed.

Lemma closes_and_pops_forced_close_events cs :
  closes_and_pops (forced_close_events cs) = close_pop_pairs cs.
Proof.
  induction cs as [|c cs IH]; [reflexivity|].
  change (forced_close_events (c :: cs))
    with ([Warning (msg_not_closed c); Call (End (type c)); Popped c]
            ++ forced_close_events cs).
  rewrite closes_and_pops_app, IH. reflexivity.
Qed.

Lemma closes_and_pops_warnings msgs : closes_and_pops (map Warning msgs) = [].
Proof. now apply project_warnings. Qed.

Lemma paired_steady w d w' : steady w d w' -> paired d.
Proof. now intros (_ & _ & _ & H). Qed.

Lemma paired_app d1 d2 : paired d1 -> paired d2 -> paired (d1 ++ d2).
Proof.
  unfold paired. intros H1 H2.
  now rewrite closes_and_pops_app, close_then_pop_app.
Qed.

Lemma end_container_paired (c : closer) (w : world) :
  does (end_container c) w (fun _ d _ => paired d).
Proof.
  destruct w as [v e lw b t]. unfold does. rewrite end_container_eq.
  assert (H : forall ty nm,
             exists a w' d,
               _pop_container_stack ty nm
                 (mk_world v e lw (sanity_driver b) (t ++ sanity_events b))
               = Some (a, w')
               /\ trace w' = t ++ d /\ paired d).
  { intros ty nm.
    destruct (pop_outcome ty nm v e lw (sanity_driver b) (t ++ sanity_events b))
      as (v' & e' & popped & msgs & Hrun & _).
    eexists tt, _, _. split; [exact Hrun|]. cbn [trace].
    split; [now rewrite <- app_assoc|].
    unfold paired. rewrite !closes_and_pops_app.
    rewrite closes_and_pops_sanity, closes_and_pops_warnings,
      closes_and_pops_close_events.
    apply close_then_pop_pairs. }
  destruct c; apply H.
Qed.

Lemma draw_interface_paired (w : world) :
  does draw_interface w (fun _ d _ => paired d).
Proof.
  destruct w as [v e lw b t]. unfold does, draw_interface, bind.
  rewrite sanity_eq, close_unclosed_eq, report_and_draw_eq.
  eexists tt, _, _. split; [reflexivity|]. cbn [trace].
  split; [now repeat rewrite <- app_assoc|].
  unfold paired. rewrite !closes_and_pops_app.
  rewrite closes_and_pops_sanity, closes_and_pops_forced_close_events.
  destruct (flagged v e); cbn; rewrite app_nil_r; apply close_then_pop_pairs.
Qed.

Lemma run_call_paired (c : api_call) (w : world) :
  does (run_call c) w (fun _ d _ => paired d).
Proof.
  destruct c as [o | c | c |]; cbn [run_call].
  - unfold ignore. eapply does_bind; [apply start_container_opened|].
    intros open d1 w1 H1. exists tt, w1, []. rewrite !app_nil_r.
    split; [reflexivity|]. split; [reflexivity|].
    destruct open; [now destruct H1 as (_ & _ & _ & H) | now apply paired_steady in H1].
  - apply end_container_paired.
  - eapply does_weaken; [apply keeps_run_plain|].
    intros a d w' H. now apply paired_steady in H.
  - apply draw_interface_paired.
Qed.

Lemma run_calls_paired (cs : list api_call) (w : world) :
  does (run_calls cs) w (fun _ d _ => paired d).
Proof.
  revert w. induction cs as [|c cs IH]; intros w; cbn [run_calls].
  - exists tt, w, []. rewrite app_nil_r. repeat split.
  - eapply does_bind; [apply run_call_paired|].
    intros [] d1 w1 H1.
    eapply does_weaken; [apply IH|].
    intros [] d2 w2 H2. cbv beta in *. now apply paired_app.
Qed.

(** C6.  Whatever calls are made to the public interface, from whatever
    state, in the trace of their run every stack pop comes right after
    the backend close of the popped record's type, and every backend
    close is followed by such a pop.  The close algorithm and the closing
    loop of [draw_interface] trace exactly one such pair for each record
    they take off the stack, innermost first. *)
Theorem closes_match_pops :
  (forall (cs : list api_call) (w : world),
      exists w' d,
        run_calls cs w = Some (tt, w')
        /\ trace w' = trace w ++ d
        /\ close_then_pop (closes_and_pops d) = true)
  /\ (forall ty nm (w : world),
         exists w' d popped,
           _pop_container_stack ty nm w = Some (tt, w')
           /\ trace w' = trace w ++ d
           /\ container_stack w = container_stack w' ++ rev popped
           /\ closes_and_pops d = close_pop_pairs popped)
  /\ (forall w : world,
         exists w' d,
           close_unclosed w = Some (tt, w')
           /\ trace w' = trace w ++ d
           /\ container_stack w' = []
           /\ closes_and_pops d = close_pop_pairs (rev (container_stack w))).
Proof.
  split; [|split].
  - intros cs w.
    destruct (run_calls_paired cs w) as ([] & w' & d & Hrun & Ht & Hd).
    now exists w', d.
  - intros ty nm [v e lw b t].
    destruct (pop_outcome ty nm v e lw b t)
      as (v' & e' & popped & msgs & Hrun & Hv).
    eexists _, _, popped. split; [exact Hrun|]. cbn [trace container_stack].
    split; [reflexivity|]. split; [assumption|].
    rewrite closes_and_pops_app, closes_and_pops_warnings.
    apply closes_and_pops_close_events.
  - intros [v e lw b t]. eexists _, _.
    split; [apply close_unclosed_eq|]. cbn [trace container_stack].
    split; [reflexivity|]. split; [reflexivity|].
    apply closes_and_pops_forced_close_events.
Qed.

(** *** More on closing *)

Lemma rev_snoc {A} (v : list A) (c : A) : rev (v ++ [c]) = c :: rev v.
Proof. now rewrite rev_app_distr. Qed.




Lemma pop_cases ty nm v e lw b t :
  exists v' e' msgs popped,
    close_case ty nm v e v' e' msgs popped
    /\ _pop_container_stack ty nm (mk_world v e lw b t)
       = Some (tt, mk_world v' e' lw (close_all popped b)
                     (t ++ map Warning msgs ++ close_events popped)).
Proof.
  destruct (stack_cases ty nm v)
    as [Hnone | (below & target & above & -> & Ht & Hab)].
  - destruct v as [|x v'] using rev_ind.
    + exists [], true, [msg_nothing_started ty nm], [].
      split; [now constructor | apply pop_nothing_open].
    + exists (v' ++ [x]), true,
        [msg_no_such_container ty nm; msg_expecting x], [].
      split; [now apply (close_missing ty nm _ e v' x)|].
      now apply pop_missing.
  - destruct above as [|top above] using rev_ind.
    + exists below, e, [], [target].
      split; [now apply (close_matching ty nm _ e below target)|].
      rewrite pop_matching by assumption. reflexivity.
    + exists below, true,
        ([msg_too_early ty nm; msg_call_these_first]
           ++ map msg_call_first (rev (above ++ [top]))),
        (rev (target :: above ++ [top])).
      split; [now apply (close_premature ty nm _ e below target above top)|].
      rewrite pop_premature by assumption.
      unfold call_first_events. rewrite map_app, map_map.
      repeat (rewrite <- app_assoc; cbn [app map]). reflexivity.
Qed.

Lemma innermost_matches_snoc ty nm v c :
  innermost_matches ty nm (v ++ [c]) = is_container ty nm c.
Proof. unfold innermost_matches. now rewrite rev_snoc. Qed.

Lemma no_match_last ty nm v c :
  Forall (no_match ty nm) (v ++ [c]) -> is_container ty nm c = false.
Proof.
  intros H. apply Forall_app in H. destruct H as [_ H].
  now inversion H.
Qed.

Lemma warnings_app (d1 d2 : list event) :
  warnings (d1 ++ d2) = warnings d1 ++ warnings d2.
Proof. apply project_app. Qed.

Lemma warnings_map msgs : warnings (map Warning msgs) = msgs.
Proof.
  induction msgs as [|m msgs IH]; [reflexivity|].
  cbn [map]. unfold warnings in *. rewrite project_cons. now rewrite IH.
Qed.

Lemma warnings_close_events cs : warnings (close_events cs) = [].
Proof. induction cs as [|c cs IH]; [reflexivity | exact IH]. Qed.

(** X1.  A close call leaves the error flag set if it was, and sets it
    exactly when its type and name are not those of the innermost
    record (in particular on an empty stack): no close call ever clears
    the flag. *)
Theorem close_sets_flag_unless_innermost (w : world) ty nm :
  exists w',
    _pop_container_stack ty nm w = Some (tt, w')
    /\ errors_occurred w'
       = errors_occurred w
         || negb (innermost_matches ty nm (container_stack w)).
Proof.
  destruct w as [v e lw b t]. cbn [container_stack errors_occurred].
  destruct (pop_cases ty nm v e lw b t)
    as (v' & e' & msgs & popped & Hcase & Hrun).
  eexists. split; [exact Hrun|]. cbn [errors_occurred].
  destruct Hcase as [-> | v0 top -> Htop | v0 top -> Hnone
                    | below target above top -> Ht Hab].
  - now rewrite orb_true_r.
  - rewrite innermost_matches_snoc, Htop. now rewrite orb_false_r.
  - rewrite innermost_matches_snoc, (no_match_last _ _ _ _ Hnone).
    now rewrite orb_true_r.
  - replace (below ++ target :: above ++ [top])
      with ((below ++ target :: above) ++ [top])
      by (now rewrite <- app_assoc).
    rewrite innermost_matches_snoc, (no_match_last _ _ _ _ Hab).
    now rewrite orb_true_r.
Qed.


(** X3.  The diagnostics of a premature close: that the call came too
    early, the line announcing what to call first, then one line for
    each record above the designated one, innermost first, and nothing
    for the designated record itself. *)
Theorem premature_close_diagnostics (w : world) (ty : panel_type) (nm : string)
    (below above : list container_info) (target top : container_info) :
  container_stack w = below ++ target :: above ++ [top] ->
  type target = ty -> name target = nm ->
  (forall c, In c (above ++ [top]) -> ~ (type c = ty /\ name c = nm)) ->
  exists w' d,
    _pop_container_stack ty nm w = Some (tt, w')
    /\ trace w' = trace w ++ d
    /\ warnings d
       = msg_too_early ty nm :: msg_call_these_first
           :: map msg_call_first (rev (above ++ [top])).
Proof.
  intros Hw Hty Hnm Habove. destruct w as [v e lw b t]. cbn in Hw. subst v.
  eexists _, _. split.
  - apply pop_premature; [apply is_container_iff; now split|].
    now apply none_match.
  - cbn [trace]. split; [reflexivity|].
    change [Warning (msg_too_early ty nm); Warning msg_call_these_first]
      with (map Warning [msg_too_early ty nm; msg_call_these_first]).
    unfold call_first_events.
    rewrite <- (map_map msg_call_first Warning).
    rewrite !warnings_app, !warnings_map, warnings_close_events.
    now rewrite app_nil_r.
Qed.

(** X4.  The diagnostics of a close that finds no record: on an empty
    stack, one line saying that nothing at all was started; otherwise
    the line naming what was asked for and a line naming the innermost
    record as what was expected instead.  A close of the innermost
    record logs nothing. *)
Theorem close_diagnostics_when_not_unwinding (w : world) ty nm :
  (innermost_matches ty nm (container_stack w) = true
   \/ forall c, In c (container_stack w) -> ~ (type c = ty /\ name c = nm)) ->
  exists w' d,
    _pop_container_stack ty nm w = Some (tt, w')
    /\ trace w' = trace w ++ d
    /\ warnings d
       = if innermost_matches ty nm (container_stack w) then []
         else orphan_messages ty nm (container_stack w).
Proof.
  intros H. destruct w as [v e lw b t]. cbn [container_stack trace] in *.
  destruct v as [|top v] using rev_ind.
  - eexists _, _. split; [apply pop_nothing_open|].
    split; reflexivity.
  - rewrite innermost_matches_snoc in *.
    destruct (is_container ty nm top) eqn:Htop.
    + eexists _, _. split; [now apply pop_matching|].
      split; reflexivity.
    + destruct H as [H | H]; [discriminate H|].
      eexists _, _. split; [apply pop_missing; now apply none_match|].
      split; [reflexivity|].
      unfold orphan_messages. now rewrite rev_snoc.
Qed.

(** *** The pre-call guard *)

(** X5.  With a driver whose start leaves it started and below its
    capacity, the guard leaves the driver started and below capacity,
    restarts it at most once, and a second guard right after it does
    nothing at all. *)
Theorem guard_settles (w : world) :
  (forall b, sk_interface_is_started (sk_interface_start b) = true) ->
  (forall b, sk_interface_capacity_limited (sk_interface_start b) = false) ->
  exists w1 d,
    _interface_sanity_check w = Some (tt, w1)
    /\ trace w1 = trace w ++ d
    /\ sk_interface_is_started (driver w1) = true
    /\ sk_interface_capacity_limited (driver w1) = false
    /\ (List.length (driver_calls d) <= 1)%nat
    /\ _interface_sanity_check w1 = Some (tt, w1).
Proof.
  intros Hstarted Hroom. destruct w as [v e lw b t].
  exists (mk_world v e lw (sanity_driver b) (t ++ sanity_events b)),
    (sanity_events b).
  split; [apply sanity_eq|]. split; [reflexivity|].
  cbn [driver].
  assert (Hs : sk_interface_is_started (sanity_driver b) = true).
  { unfold sanity_driver.
    destruct (sk_interface_is_started b) eqn:E; cbn [negb].
    - destruct (sk_interface_capacity_limited b); [apply Hstarted | exact E].
    - rewrite Hroom. apply Hstarted. }
  assert (Hr : sk_interface_capacity_limited (sanity_driver b) = false).
  { unfold sanity_driver.
    destruct (sk_interface_is_started b); cbn [negb].
    - destruct (sk_interface_capacity_limited b) eqn:E;
        [apply Hroom | exact E].
    - rewrite Hroom. apply Hroom. }
  split; [exact Hs|]. split; [exact Hr|]. split.
  - unfold sanity_events.
    destruct (sk_interface_is_started b); cbn [negb].
    + destruct (sk_interface_capacity_limited b); cbn; lia.
    + rewrite Hroom. cbn. lia.
  - rewrite sanity_eq. remember (sanity_driver b) as b1 eqn:Hb1.
    unfold sanity_events, sanity_driver.
    rewrite Hs. cbn [negb]. rewrite Hr. cbn [app]. now rewrite app_nil_r.
Qed.

(** *** The backend mirrors the stack *)












Lemma draw_interface_eq v e lw b t :
  draw_interface (mk_world v e lw b t)
  = Some (tt, mk_world [] false lw
                (sk_interface_draw option_defaults
                   (close_all (rev v) (sanity_driver b)))
                (t ++ sanity_events b ++ forced_close_events (rev v)
                   ++ (if flagged v e then [Warning msg_errors_occurred] else [])
                   ++ [Call (Draw option_defaults)])).
Proof.
  unfold draw_interface, bind.
  rewrite sanity_eq, close_unclosed_eq, report_and_draw_eq.
  now repeat rewrite <- app_assoc.
Qed.




(** *** Frames *)

(** X7.  Errors are reported once: whatever the state, a second
    [draw_interface] right after a first closes nothing, pops nothing and
    logs no error summary; past the guard it only draws. *)
Theorem second_draw_is_clean (w : world) :
  exists w1 w2,
    draw_interface w = Some (tt, w1)
    /\ draw_interface w1 = Some (tt, w2)
    /\ container_stack w2 = []
    /\ errors_occurred w2 = false
    /\ trace w2
       = trace w1 ++ sanity_events (driver w1) ++ [Call (Draw option_defaults)].
Proof.
  destruct w as [v e lw b t].
  eexists _, _. split; [apply draw_interface_eq|].
  split; [apply draw_interface_eq|]. repeat split.
Qed.

(** X8.  A frame of well-nested calls, started with nothing open and the
    error flag unset, draws clean: [draw_interface] finds nothing to
    close and no error to report. *)
Theorem well_nested_frame_draws_clean (p : nesting) (w : world) :
  container_stack w = [] ->
  errors_occurred w = false ->
  exists w1 w2,
    run_nesting p w = Some (tt, w1)
    /\ draw_interface w1 = Some (tt, w2)
    /\ trace w2
       = trace w1 ++ sanity_events (driver w1) ++ [Call (Draw option_defaults)].
Proof.
  intros Hstack Hflag.
  destruct (keeps_run_nesting p w) as ([] & w1 & d & Hrun & _ & K & E & _).
  destruct w1 as [v1 e1 lw1 b1 t1]. cbn [container_stack errors_occurred] in *.
  assert (v1 = []) as ->
    by (rewrite Hstack in K; destruct v1; [reflexivity | discriminate K]).
  assert (e1 = false) as -> by congruence.
  eexists _, _. split; [exact Hrun|].
  split; [apply draw_interface_eq|]. reflexivity.
Qed.

(** *** Opening, and opening then closing *)

Lemma change_back_snoc f v c : change_back f (v ++ [c]) = v ++ [f c].
Proof. unfold change_back. now rewrite rev_snoc, rev_involutive. Qed.

Lemma _update_layout_stack v e lw b t :
  exists b' t',
    _update_layout (mk_world v e lw b t) = Some (tt, mk_world v e lw b' t').
Proof.
  destruct v as [|c v] using rev_ind.
  - now exists b, t.
  - eexists _, _. apply _update_layout_eq.
Qed.

Lemma set_layout_height_stack height v e lw b t :
  exists b' t',
    set_layout_height height (mk_world v e lw b t)
    = Some (tt, mk_world
                  (change_back (fun c => with_layout c (layout_widths c) height) v)
                  e lw b' t').
Proof.
  destruct v as [|c v] using rev_ind.
  - eexists _, _.
    apply (layout_mutator_empty (do_set_layout_height height)). reflexivity.
  - rewrite change_back_snoc. eexists _, _.
    apply (layout_mutator_nonempty (do_set_layout_height height)). reflexivity.
Qed.

Lemma start_container_exact o v e lw b t :
  opens_into o v e lw (start_container o (mk_world v e lw b t)).
Proof.
  unfold opens_into.
  destruct o as [nm r | nm | nm height | nm |]; cbn [start_container].
  - unfold start_panel.
    rewrite (bind_Some _ _ _ _ _ (sanity_eq v e lw b t)).
    rewrite (bind_Some _ _ _ _ _ (request_eq _ _ v e lw _ _)).
    destruct (fst (sk_interface_start_panel nm r (sanity_driver b))).
    + rewrite (bind_Some _ _ _ _ _ (_push_container_stack_open _ _ v e lw _ _)).
      eexists true, _, _. split; [reflexivity|].
      intros [H | H]; discriminate H.
    + rewrite _push_container_stack_closed.
      match goal with
      | |- context [bind _update_layout _ (mk_world ?v1 ?e1 ?lw1 ?b1 ?t1)] =>
          destruct (_update_layout_stack v1 e1 lw1 b1 t1) as (b2 & t2 & Hrun)
      end.
      rewrite (bind_Some _ _ _ _ _ Hrun).
      eexists false, _, _. split; [reflexivity|].
      intros [H | H]; discriminate H.
  - unfold start_popup.
    rewrite (bind_Some _ _ _ _ _ (sanity_eq v e lw b t)).
    rewrite (bind_Some _ _ _ _ _ (request_eq _ _ v e lw _ _)).
    destruct (fst (sk_interface_start_popup nm (sanity_driver b))).
    + rewrite (bind_Some _ _ _ _ _ (_push_container_stack_open _ _ v e lw _ _)).
      rewrite (bind_Some _ _ _ _ _
                 (layout_mutator_nonempty do_single_line_layout v _ e lw _ _
                    eq_refl)).
      eexists true, _, _. split; [reflexivity|].
      intros [H | H]; discriminate H.
    + rewrite _push_container_stack_closed.
      match goal with
      | |- context [bind _update_layout _ (mk_world ?v1 ?e1 ?lw1 ?b1 ?t1)] =>
          destruct (_update_layout_stack v1 e1 lw1 b1 t1) as (b2 & t2 & Hrun)
      end.
      rewrite (bind_Some _ _ _ _ _ Hrun).
      eexists false, _, _. split; [reflexivity|].
      intros [H | H]; discriminate H.
  - assert (Hinset : exists b' t',
               start_inset nm height (mk_world v e lw b t)
               = Some (tt, mk_world
                             (stack_after_open (in_inset nm height) true v)
                             e lw b' t')).
    { unfold start_inset.
      rewrite (bind_Some _ _ _ _ _ (sanity_eq v e lw b t)).
      destruct (set_layout_height_stack height v e lw (sanity_driver b)
                  (t ++ sanity_events b)) as (b1 & t1 & Hrun).
      rewrite (bind_Some _ _ _ _ _ Hrun).
      rewrite (bind_Some _ _ _ _ _ (command_eq _ _ _ e lw _ _)).
      rewrite _push_container_stack_open. eexists _, _. reflexivity. }
    destruct Hinset as (b' & t' & Hrun).
    rewrite (bind_Some _ _ _ _ _ Hrun).
    eexists true, _, _. split; reflexivity.
  - unfold start_treenode.
    rewrite (bind_Some _ _ _ _ _ (sanity_eq v e lw b t)).
    rewrite (bind_Some _ _ _ _ _ (request_eq _ _ v e lw _ _)).
    destruct (fst (sk_interface_start_treenode nm (sanity_driver b))).
    + rewrite (bind_Some _ _ _ _ _ (_push_container_stack_open _ _ v e lw _ _)).
      eexists true, _, _. split; [reflexivity|].
      intros [H | H]; discriminate H.
    + rewrite _push_container_stack_closed.
      match goal with
      | |- context [bind _update_layout _ (mk_world ?v1 ?e1 ?lw1 ?b1 ?t1)] =>
          destruct (_update_layout_stack v1 e1 lw1 b1 t1) as (b2 & t2 & Hrun)
      end.
      rewrite (bind_Some _ _ _ _ _ Hrun).
      eexists false, _, _. split; [reflexivity|].
      intros [H | H]; discriminate H.
  - rewrite (bind_Some _ _ _ _ _ (enter_column_eq v e lw b t)).
    eexists true, _, _. split; reflexivity.
Qed.

(** X9.  What an open call does to the engine: it never touches the
    error flag or the label width; it adds one record of its type and
    name, innermost, exactly when it answers true ([start_inset] and
    [enter_column] always do); the record has the default layout, but a
    popup starts with no column at all; and [start_inset] first gives its
    height to the record that will hold the inset. *)
Theorem open_call_effect (o : opener) (w : world) :
  exists opened w',
    start_container o w = Some (opened, w')
    /\ container_stack w' = stack_after_open o opened (container_stack w)
    /\ errors_occurred w' = errors_occurred w
    /\ label_width w' = label_width w
    /\ (kind_of o = inset \/ kind_of o = column -> opened = true).
Proof.
  destruct w as [v e lw b t].
  destruct (start_container_exact o v e lw b t)
    as (opened & b' & t' & Hrun & Halways).
  exists opened, (mk_world (stack_after_open o opened v) e lw b' t').
  repeat split; assumption.
Qed.

Lemma opened_record_key o :
  type (opened_record o) = kind_of o /\ name (opened_record o) = name_of o.
Proof. destruct o; split; reflexivity. Qed.

(** X10.  Opening a container and closing it right away, with the call
    that goes with the open call, gives back the stack and the error flag
    as they were, record for record, with one exception: after
    [start_inset] and [end_inset] the record that held the inset keeps
    the height the inset was given. *)
Theorem open_then_close (o : opener) (w : world) :
  exists opened w1,
    start_container o w = Some (opened, w1)
    /\ (opened = true ->
        exists w2,
          end_container (closer_of o) w1 = Some (tt, w2)
          /\ container_stack w2 = holder_after_open o (container_stack w)
          /\ errors_occurred w2 = errors_occurred w).
Proof.
  destruct w as [v e lw b t].
  destruct (start_container_exact o v e lw b t)
    as (opened & b' & t' & Hrun & _).
  eexists opened, _. split; [exact Hrun|]. intros ->.
  cbn [stack_after_open container_stack errors_occurred].
  destruct (opened_record_key o) as [Hty Hnm].
  eexists. split; [now apply end_container_matching|]. now split.
Qed.

(** *** More on the layout *)

Lemma set_layout_calls_app (d1 d2 : list event) :
  set_layout_calls (d1 ++ d2) = set_layout_calls d1 ++ set_layout_calls d2.
Proof. apply project_app. Qed.

Lemma sent_layouts_cons before width rest height :
  sent_layouts before (width :: rest) height
  = (before ++ [width], height) :: sent_layouts (before ++ [width]) rest height.
Proof.
  unfold sent_layouts. cbn [List.length seq map firstn]. f_equal.
  rewrite <- seq_shift, map_map. apply map_ext. intros k.
  cbn [firstn]. now rewrite <- app_assoc.
Qed.

Lemma with_layout_same c :
  with_layout c (layout_widths c) (layout_height c) = c.
Proof. now destruct c. Qed.

Lemma add_columns_eq widths v c e lw b t :
  exists b' d,
    add_columns widths (mk_world (v ++ [c]) e lw b t)
    = Some (tt, mk_world
                  (v ++ [with_layout c (layout_widths c ++ widths)
                           (layout_height c)])
                  e lw b' (t ++ d))
    /\ set_layout_calls d
       = sent_layouts (layout_widths c) widths (layout_height c).
Proof.
  revert c b t. induction widths as [|width rest IH]; intros c b t.
  - exists b, []. cbn [add_columns]. rewrite !app_nil_r, with_layout_same.
    split; reflexivity.
  - cbn [add_columns].
    rewrite (bind_Some _ _ _ _ _
               (layout_mutator_nonempty (do_add_column width) v c e lw b t
                  eq_refl)).
    cbn [mutated].
    destruct (IH (with_layout c (layout_widths c ++ [width]) (layout_height c))
                (sk_interface_set_layout (layout_widths c ++ [width])
                   (layout_height c) (sanity_driver b))
                (t ++ sanity_events b
                   ++ [Call (SetLayout (layout_widths c ++ [width])
                               (layout_height c))]))
      as (b' & d & Hrun & Hd).
    cbn [with_layout layout_widths layout_height type name] in Hrun, Hd |- *.
    eexists b', _. split.
    + rewrite Hrun. rewrite <- (app_assoc (layout_widths c)). cbn [app].
      rewrite <- !app_assoc. reflexivity.
    + rewrite !set_layout_calls_app, set_layout_calls_sanity, Hd.
      now rewrite sent_layouts_cons.
Qed.

(** X11.  Building a custom layout: on a stack that is not empty,
    [start_custom_layout] followed by one [add_column] per width leaves
    the innermost record with exactly these widths, in order, and its
    height; the driver is sent the empty layout first, then, after each
    column, the columns so far. *)
Theorem custom_layout_columns (widths : list Z) (w : world)
    (v : list container_info) (c : container_info) :
  container_stack w = v ++ [c] ->
  exists w' d,
    (start_custom_layout ;;; add_columns widths) w = Some (tt, w')
    /\ container_stack w' = v ++ [with_layout c widths (layout_height c)]
    /\ trace w' = trace w ++ d
    /\ set_layout_calls d
       = ([], layout_height c) :: sent_layouts [] widths (layout_height c).
Proof.
  intros Hw. destruct w as [v0 e lw b t]. cbn in Hw. subst v0.
  rewrite (bind_Some _ _ _ _ _
             (layout_mutator_nonempty do_start_custom_layout v c e lw b t
                eq_refl)).
  cbn [mutated].
  match goal with
  | |- context [add_columns widths (mk_world (v ++ [?c1]) ?e1 ?lw1 ?b1 ?t1)] =>
      destruct (add_columns_eq widths v c1 e1 lw1 b1 t1) as (b' & d & Hrun & Hd)
  end.
  cbn [with_layout layout_widths layout_height type name app] in Hrun, Hd.
  eexists _, _. split; [exact Hrun|]. cbn [container_stack trace].
  split; [reflexivity|]. split; [now rewrite <- !app_assoc|].
  rewrite !set_layout_calls_app, set_layout_calls_sanity, Hd. reflexivity.
Qed.

Lemma header_eq lbl v e lw b t :
  exists b' d,
    header lbl (mk_world v e lw b t)
    = Some (fst (sk_interface_header lbl (sanity_driver b)),
            mk_world v e lw b' (t ++ d))
    /\ filter visible d
       = Call (Header lbl (fst (sk_interface_header lbl (sanity_driver b))))
           :: match rev v with
              | [] => []
              | c :: _ => [Call (SetLayout (layout_widths c) (layout_height c))]
              end.
Proof.
  unfold header.
  rewrite (bind_Some _ _ _ _ _ (sanity_eq v e lw b t)).
  rewrite (bind_Some _ _ _ _ _ (request_eq _ _ v e lw _ _)).
  destruct v as [|c v] using rev_ind.
  - eexists _, _. split.
    + cbn. rewrite <- app_assoc. reflexivity.
    + rewrite filter_app, sanity_events_invisible. reflexivity.
  - rewrite (bind_Some _ _ _ _ _ (_update_layout_eq v c e lw _ _)).
    rewrite rev_snoc. eexists _, _. split.
    + cbv [ret]. repeat (rewrite <- app_assoc; cbn [app]). reflexivity.
    + rewrite filter_app, sanity_events_invisible. reflexivity.
Qed.

(** X12.  [header] answers what the driver answered, leaves the stack,
    the error flag and the label width alone, and, when a container is
    open, sends the layout of the innermost record to the driver again
    right after the header; on an empty stack it sends no layout. *)
Theorem header_resends_layout (lbl : string) (w : world) :
  exists answer w' d,
    header lbl w = Some (answer, w')
    /\ container_stack w' = container_stack w
    /\ errors_occurred w' = errors_occurred w
    /\ label_width w' = label_width w
    /\ trace w' = trace w ++ d
    /\ filter visible d
       = Call (Header lbl answer)
           :: match rev (container_stack w) with
              | [] => []
              | c :: _ => [Call (SetLayout (layout_widths c) (layout_height c))]
              end.
Proof.
  destruct w as [v e lw b t].
  destruct (header_eq lbl v e lw b t) as (b' & d & Hrun & Hd).
  eexists _, _, d. split; [exact Hrun|]. repeat split. exact Hd.
Qed.

(** X13.  The label width set by [set_interface_label_width] is the one
    the next control with a label uses for its first column, whatever it
    was before; the stack is left as it was. *)
Theorem label_width_takes_effect (m : plain_call) (width : Z) (w : world) :
  labeled_control m = true ->
  exists w' d lbl c,
    (set_interface_label_width width ;;; run_plain m) w = Some (tt, w')
    /\ label_width w' = width
    /\ container_stack w' = container_stack w
    /\ trace w' = trace w ++ d
    /\ control_call c = true
    /\ filter visible d = labeled_events width lbl c.
Proof.
  intros Hm. destruct w as [v e lw b t].
  destruct (labeled_control_run m v e width b t Hm)
    as (b' & d & lbl & c & Hrun & Hc & Hd).
  exists (mk_world v e width b' (t ++ d)), d, lbl, c.
  split; [exact Hrun|]. repeat split; assumption.
Qed.

(** *** Calls that leave the engine alone *)

Lemma still_ret {A} (a : A) : still (ret a).
Proof. intros v e lw b t. now exists a, b, t. Qed.

Lemma still_bind {A B} (m : M A) (k : A -> M B) :
  still m -> (forall a, still (k a)) -> still (bind m k).
Proof.
  intros Hm Hk v e lw b t.
  destruct (Hm v e lw b t) as (a & b1 & t1 & Hrun1).
  destruct (Hk a v e lw b1 t1) as (r & b2 & t2 & Hrun2).
  exists r, b2, t2. now rewrite (bind_Some _ _ _ _ _ Hrun1).
Qed.

Lemma still_gets {A} (f : world -> A) : still (gets f).
Proof. intros v e lw b t. eexists _, b, t. reflexivity. Qed.

Lemma still_command c f : still (command c f).
Proof. intros v e lw b t. eexists tt, _, _. reflexivity. Qed.

Lemma still_request {A} (c : A -> driver_call) f : still (request c f).
Proof. intros v e lw b t. eexists _, _, _. apply request_eq. Qed.

Lemma still__interface_sanity_check : still _interface_sanity_check.
Proof. intros v e lw b t. eexists tt, _, _. apply sanity_eq. Qed.

Lemma still__update_layout : still _update_layout.
Proof.
  intros v e lw b t.
  destruct (_update_layout_stack v e lw b t) as (b' & t' & Hrun).
  now exists tt, b', t'.
Qed.

Lemma still_ignore {A} (m : M A) : still m -> still (ignore m).
Proof.
  intros Hm. unfold ignore. apply still_bind; [assumption|].
  intros _. apply still_ret.
Qed.

Ltac stillness :=
  repeat first
    [ apply still_ret
    | apply still__interface_sanity_check
    | apply still__update_layout
    | apply still_gets
    | apply still_ignore
    | apply still_command
    | apply still_request
    | apply still_bind; [|intros ?] ].

Lemma still_labeled_control (m : plain_call) :
  labeled_control m = true -> still (run_plain m).
Proof.
  intros Hm v e lw b t.
  destruct (labeled_control_run m v e lw b t Hm) as (b' & d & _ & _ & Hrun & _).
  now exists tt, b', (t ++ d).
Qed.

Lemma still_run_plain (m : plain_call) :
  layout_mutator m = false ->
  (forall width, m <> do_set_interface_label_width width) ->
  still (run_plain m).
Proof.
  intros Hmut Hlw.
  destruct (labeled_control m) eqn:Hlab; [now apply still_labeled_control|].
  destruct m; try discriminate Hlab; try discriminate Hmut; cbn [run_plain].
  - unfold set_interface_font. stillness.
  - unfold set_interface_font_named, set_interface_font. stillness.
  - unfold set_interface_font_size. stillness.
  - now elim (Hlw width).
  - unfold open_popup. stillness.
  - unfold header. stillness.
  - unfold label. stillness.
  - unfold paragraph. stillness.
  - unfold button. stillness.
  - unfold checkbox. stillness.
  - unfold slider. stillness.
  - unfold number_box. stillness.
  - unfold text_box. stillness.
  - unfold last_element_changed. stillness.
  - unfold last_element_confirmed. stillness.
Qed.

(** X14.  The calls that neither open nor close a container nor draw
    never change the error flag nor which containers are open.  Apart
    from the six layout mutators they leave every record of the stack as
    it is, and apart from [set_interface_label_width] they leave the
    label width as it is. *)
Theorem plain_calls_leave_containers (m : plain_call) (w : world) :
  exists w',
    run_plain m w = Some (tt, w')
    /\ errors_occurred w' = errors_occurred w
    /\ keys (container_stack w') = keys (container_stack w)
    /\ (layout_mutator m = false -> container_stack w' = container_stack w)
    /\ ((forall width, m <> do_set_interface_label_width width) ->
        label_width w' = label_width w).
Proof.
  destruct (keeps_run_plain m w) as ([] & w' & d & Hrun & _ & K & E & _).
  exists w'. split; [exact Hrun|]. split; [exact E|]. split; [exact K|].
  destruct w as [v e lw b t]. cbn [container_stack label_width].
  split.
  - intros Hmut.
    destruct m; try discriminate Hmut;
      try (match goal with
           | |- container_stack _ = _ =>
               destruct (still_run_plain _ Hmut
                           ltac:(intros ? ?; discriminate) v e lw b t)
                 as ([] & b' & t' & Hrun');
               rewrite Hrun' in Hrun; injection Hrun as <-; reflexivity
           end).
    cbn in Hrun. injection Hrun as <-. reflexivity.
  - intros Hlw.
    destruct (layout_mutator m) eqn:Hmut.
    + destruct v as [|c v] using rev_ind.
      * rewrite (layout_mutator_empty m e lw b t Hmut) in Hrun.
        injection Hrun as <-. reflexivity.
      * rewrite (layout_mutator_nonempty m v c e lw b t Hmut) in Hrun.
        injection Hrun as <-. reflexivity.
    + destruct (still_run_plain m Hmut Hlw v e lw b t)
        as ([] & b' & t' & Hrun').
      rewrite Hrun' in Hrun. injection Hrun as <-. reflexivity.
Qed.

End Proofs.

(** ** The engine at work on the small driver *)

Module Scenario.

Import Demo.

Definition A : container_info := new_container panel "A".
Definition B : container_info := new_container treenode "B".
Definition C : container_info := new_container column EmptyString.

(** Open order [A], [B], [C]; closing [A] closes [C], then [B], then
    [A], and empties the stack. *)
Lemma premature_close_unwinds_ABC :
  container_stack (holding [A; B; C]) = [] ++ A :: [B] ++ [C]
  /\ exists msgs,
       _pop_container_stack panel "A" (holding [A; B; C])
       = Some (tt, mk_world [] true 60
                     (close_all [C; B; A] (driver (holding [A; B; C])))
                     (map Warning msgs
                        ++ [Call (End column); Popped C;
                            Call (End treenode); Popped B;
                            Call (End panel); Popped A])).
Proof.
  split; [reflexivity|].
  apply (premature_close_unwinds (holding [A; B; C]) panel "A" [] [B] A C);
    [reflexivity | reflexivity | reflexivity |].
  intros c [<- | [<- | []]] [H _]; discriminate H.
Defined.

Lemma matching_close_pops_top_BC :
  container_stack (holding [B; C]) = [B] ++ [C]
  /\ _pop_container_stack column EmptyString (holding [B; C])
     = Some (tt, mk_world [B] false 60
                   (end_driver column (driver (holding [B; C])))
                   [Call (End column); Popped C]).
Proof.
  split; [reflexivity|].
  apply (matching_close_pops_top (holding [B; C]) column EmptyString [B] C);
    reflexivity.
Defined.

Lemma orphan_close_is_inert_AB :
  exists msgs,
    _pop_container_stack popup "A" (holding [A; B])
    = Some (tt, mk_world [A; B] true 60 (driver (holding [A; B]))
                  (map Warning msgs)).
Proof.
  apply (orphan_close_is_inert (holding [A; B]) popup "A").
  intros c [<- | [<- | []]] [H _]; discriminate H.
Defined.

Lemma layout_reset_and_two_columns_AB :
  label_width (holding [A; B]) = 60
  /\ (exists w',
         reset_layout (holding [A; B]) = Some (tt, w')
         /\ container_stack w' = [A] ++ [with_layout B [-1] 0])
  /\ (exists w',
         _two_column_layout (holding [A; B]) = Some (tt, w')
         /\ container_stack w' = [A] ++ [with_layout B [60; -1] 0]).
Proof.
  destruct (layout_reset_and_two_columns (holding [A; B]) [A] B eq_refl)
    as [Hreset Htwo].
  split; [reflexivity|]. split; [exact Hreset | exact (Htwo eq_refl)].
Defined.

Lemma layout_mutators_push_layout_add_column :
  exists w',
    add_column 40 (holding [A]) = Some (tt, w')
    /\ container_stack w' = [with_layout A [-1; 40] 0]
    /\ trace w' = [Call (SetLayout [-1; 40] 0)].
Proof.
  destruct (layout_mutators_push_layout (do_add_column 40) (holding [A]) eq_refl)
    as (w1 & guard & Hguard & _ & _ & _ & _ & _ & _ & Hrun).
  destruct (Hrun [] A eq_refl) as (c' & -> & Hrun').
  injection Hguard as <-.
  eexists. split; [exact Hrun'|]. split; reflexivity.
Defined.

(** A panel holding a labeled button inside a column and a popup that
    the driver does not show. *)
Definition nested_calls : nesting :=
  nest (in_panel "p" (0, 0, 200, 100))
       (nest in_column (plainly (do_button_labeled "name" "ok") done)
             (nest (in_popup "q") done done))
       done.

Lemma well_nested_round_trip_demo :
  exists w' d,
    run_nesting nested_calls fresh = Some (tt, w')
    /\ trace w' = trace fresh ++ d
    /\ container_stack w' = []
    /\ errors_occurred w' = false
    /\ lifo (brackets d) [] = Some []
    /\ close_then_pop (closes_and_pops d) = true.
Proof.
  apply (well_nested_round_trip nested_calls fresh); reflexivity.
Defined.

Lemma labeled_control_restores_stack_button :
  exists w' d lbl c,
    run_plain (do_button_labeled "name" "ok") (holding [A]) = Some (tt, w')
    /\ container_stack w' = [A]
    /\ errors_occurred w' = false
    /\ label_width w' = 60
    /\ trace w' = d
    /\ control_call c = true
    /\ filter visible d = labeled_events 60 lbl c.
Proof.
  apply (labeled_control_restores_stack (do_button_labeled "name" "ok")
           (holding [A])).
  reflexivity.
Defined.

(** Drawing with [A] (outer) and [B] (inner) still open closes [B]
    before [A]. *)
Example draw_closes_inner_first :
  exists w',
    draw_interface (holding [A; B]) = Some (tt, w')
    /\ container_stack w' = []
    /\ errors_occurred w' = false
    /\ driver_calls (trace w') = [End treenode; End panel; Draw tt]
    /\ pops (trace w') = [B; A]
    /\ warnings (trace w')
       = [msg_not_closed B; msg_not_closed A; msg_errors_occurred].
Proof. eexists. split; [vm_compute; reflexivity|]. repeat split. Qed.

(** Closing on an empty stack: nothing but a diagnostic and the flag. *)
Example orphan_close_on_empty_stack :
  _pop_container_stack panel "A" fresh
  = Some (tt, mk_world [] true 60 (driver fresh)
                [Warning (msg_nothing_started panel "A")]).
Proof. reflexivity. Qed.

(** Closing the column pops it and leaves the panel innermost, and no
    layout is sent to the driver. *)
Lemma no_layout_sent_after_pop :
  exists w',
    leave_column (holding [A; C]) = Some (tt, w')
    /\ container_stack w' = [A]
    /\ pops (trace w') = [C]
    /\ set_layout_calls (trace w') = [].
Proof. eexists. repeat split. Qed.

(** Further runs on the small driver. *)

Lemma premature_close_diagnostics_ABC :
  exists w' d,
    _pop_container_stack panel "A" (holding [A; B; C]) = Some (tt, w')
    /\ trace w' = trace (holding [A; B; C]) ++ d
    /\ warnings d
       = [msg_too_early panel "A"; msg_call_these_first;
          msg_call_first C; msg_call_first B].
Proof.
  apply (premature_close_diagnostics (holding [A; B; C]) panel "A" [] [B] A C);
    [reflexivity | reflexivity | reflexivity |].
  intros c [<- | [<- | []]] [H _]; discriminate H.
Defined.

Lemma close_diagnostics_orphan_AB :
  exists w' d,
    _pop_container_stack popup "A" (holding [A; B]) = Some (tt, w')
    /\ trace w' = trace (holding [A; B]) ++ d
    /\ warnings d = [msg_no_such_container popup "A"; msg_expecting B].
Proof.
  apply (close_diagnostics_when_not_unwinding (holding [A; B]) popup "A").
  right. intros c [<- | [<- | []]] [H _]; discriminate H.
Defined.

(** A driver not yet started and over its capacity. *)
Definition stale : world :=
  mk_world [A] false 60 (mk_state false 70 [panel] []) [].

Lemma guard_settles_stale :
  exists w1 d,
    _interface_sanity_check stale = Some (tt, w1)
    /\ trace w1 = trace stale ++ d
    /\ sk_interface_is_started (driver w1) = true
    /\ sk_interface_capacity_limited (driver w1) = false
    /\ (List.length (driver_calls d) <= 1)%nat
    /\ _interface_sanity_check w1 = Some (tt, w1).
Proof. apply (guard_settles stale); intros b; reflexivity. Defined.

Lemma well_nested_frame_draws_clean_demo :
  exists w1 w2,
    run_nesting nested_calls fresh = Some (tt, w1)
    /\ draw_interface w1 = Some (tt, w2)
    /\ trace w2
       = trace w1 ++ sanity_events (driver w1) ++ [Call (Draw option_defaults)].
Proof.
  apply (well_nested_frame_draws_clean nested_calls fresh); reflexivity.
Defined.

Lemma custom_layout_columns_A :
  exists w' d,
    (start_custom_layout ;;; add_columns [100; 50; -1]) (holding [A])
    = Some (tt, w')
    /\ container_stack w' = [] ++ [with_layout A [100; 50; -1] 0]
    /\ trace w' = trace (holding [A]) ++ d
    /\ set_layout_calls d
       = [([], 0); ([100], 0); ([100; 50], 0); ([100; 50; -1], 0)].
Proof.
  apply (custom_layout_columns [100; 50; -1] (holding [A]) [] A). reflexivity.
Defined.

Lemma label_width_takes_effect_button :
  exists w' d lbl c,
    (set_interface_label_width 80 ;;; run_plain (do_button_labeled "name" "ok"))
      (holding [A])
    = Some (tt, w')
    /\ label_width w' = 80
    /\ container_stack w' = [A]
    /\ trace w' = d
    /\ control_call c = true
    /\ filter visible d = labeled_events 80 lbl c.
Proof.
  apply (label_width_takes_effect (do_button_labeled "name" "ok") 80
           (holding [A])).
  reflexivity.
Defined.

(** An inset opened and closed inside [A] leaves [A] with the height of
    the inset. *)
Lemma open_then_close_inset :
  exists w1 w2,
    start_container (in_inset "i" 30) (holding [A]) = Some (true, w1)
    /\ end_container (out_inset "i") w1 = Some (tt, w2)
    /\ container_stack w2 = [with_layout A [-1] 30]
    /\ errors_occurred w2 = false.
Proof.
  destruct (open_then_close (in_inset "i" 30) (holding [A]))
    as (opened & w1 & Hopen & Hclose).
  assert (Htrue : opened = true).
  { destruct opened; [reflexivity|].
    vm_compute in Hopen. discriminate Hopen. }
  subst opened. destruct (Hclose eq_refl) as (w2 & Hrun & Hstack & Hflag).
  exists w1, w2. repeat split; assumption.
Defined.

Lemma plain_calls_leave_containers_button :
  exists w',
    run_plain (do_button "ok") (holding [A; B]) = Some (tt, w')
    /\ errors_occurred w' = false
    /\ container_stack w' = [A; B]
    /\ label_width w' = 60.
Proof.
  destruct (plain_calls_leave_containers (do_button "ok") (holding [A; B]))
    as (w' & Hrun & Hflag & _ & Hstack & Hlw).
  exists w'. split; [exact Hrun|]. split; [exact Hflag|].
  split; [exact (Hstack eq_refl)|].
  apply Hlw. intros width H. discriminate H.
Defined.

End Scenario.
